(** * MUI translator service: a shallow embedding of [app.py]

    The development follows the class [MUITranslator] and the [/translate]
    endpoint of [app.py]:

    - [PyStr]: Python [str] values as lists of Unicode code points, with the
      string methods the program calls ([strip], [split], [join], [replace],
      [startswith]);
    - [Re]: the fragment of [re] the five code patterns are written in, with
      [re.match] as a derivative matcher and its language semantics;
    - [Translator]: [is_code_like], [parse_mui_file], [translate_texts],
      [reconstruct_mui_file], [generate_translation_report] and the endpoint
      [translate_mui_file];
    - [Spec]: three operations as the specification words them, for
      comparison with the program's;
    - [Lite]: a small parser for attribute-free markup, used to instantiate
      the XML parser where a statement needs a concrete one, with the sample
      inputs in [Samples], [Runs] and [MoreRuns];
    - [Direct]: the rules of [is_code_like] as tests on characters; [Walk]:
      the elements below the root in document order; [Service]: the status
      endpoints [/health] and [/test].

    Two things the program takes from its runtime are parameters of the
    development: the XML parser behind [ET.fromstring], and the non-ASCII part
    of the Unicode table of decimal digits behind the pattern [\d]. *)

From Stdlib Require Import List NArith Arith Bool Btauto Lia String Ascii.
From Stdlib Require Import DecimalString.
Import ListNotations.

Set Implicit Arguments.

(* ================================================================= *)
(** ** Python strings *)

Module PyStr.

(** A character is a Unicode code point; a [str] is a sequence of them, so
    that [len] counts code points as Python does. *)
Definition char := N.
Definition str := list char.

Definition char_eqb (a b : char) : bool := N.eqb a b.

Fixpoint str_eqb (a b : str) : bool :=
  match a, b with
  | [], [] => true
  | x :: a', y :: b' => char_eqb x y && str_eqb a' b'
  | _, _ => false
  end.

(** *** Literals

    Source literals are written as Rocq strings; the file is UTF-8, so a
    literal is decoded from its bytes to code points. *)

Definition cont (b : N) : N := N.land b 63.

Fixpoint utf8_decode (bs : list N) : str :=
  match bs with
  | [] => []
  | b :: r =>
      if b <? 128 then b :: utf8_decode r
      else if b <? 224 then
        match r with
        | b1 :: r' => (N.land b 31 * 64 + cont b1) :: utf8_decode r'
        | _ => []
        end
      else if b <? 240 then
        match r with
        | b1 :: b2 :: r' =>
            (N.land b 15 * 4096 + cont b1 * 64 + cont b2) :: utf8_decode r'
        | _ => []
        end
      else
        match r with
        | b1 :: b2 :: b3 :: r' =>
            (N.land b 7 * 262144 + cont b1 * 4096 + cont b2 * 64 + cont b3)
              :: utf8_decode r'
        | _ => []
        end
  end%N.

Definition lit (s : string) : str :=
  utf8_decode (map N_of_ascii (list_ascii_of_string s)).

(** [str(n)] for a non-negative integer. *)
Definition str_of_nat (n : nat) : str :=
  lit (NilZero.string_of_uint (Nat.to_uint n)).

(** *** [startswith], [replace] *)

Fixpoint startswith (s prefix : str) {struct prefix} : bool :=
  match prefix, s with
  | [], _ => true
  | p :: prefix', c :: s' => char_eqb p c && startswith s' prefix'
  | _ :: _, [] => false
  end.

(** [s.replace(old, new, 1)]: the leftmost occurrence of [old] in [s] is
    replaced, the rest of [s] is kept; [s] is returned as it is when [old]
    does not occur. *)
Fixpoint replace_first (s old new : str) : str :=
  if startswith s old then new ++ skipn (List.length old) s
  else match s with
       | [] => []
       | c :: s' => c :: replace_first s' old new
       end.

(** [s.replace(c, '')] for a one-character [c]: every occurrence is
    removed. *)
Definition remove_char (c : char) (s : str) : str :=
  filter (fun x => negb (char_eqb x c)) s.

(** Index of the leftmost occurrence, [s.find(old)] with [None] for -1. *)
Fixpoint find (s old : str) : option nat :=
  if startswith s old then Some 0
  else match s with
       | [] => None
       | _ :: s' => option_map S (find s' old)
       end.

(** *** [strip]

    [str.strip()] without argument removes the characters for which
    [str.isspace] holds. *)
Definition isspace (c : char) : bool :=
  (((9 <=? c) && (c <=? 13)) || ((28 <=? c) && (c <=? 32))
  || (c =? 133) || (c =? 160) || (c =? 5760)
  || ((8192 <=? c) && (c <=? 8202))
  || (c =? 8232) || (c =? 8233) || (c =? 8239) || (c =? 8287)
  || (c =? 12288))%N.

Fixpoint lstrip (s : str) : str :=
  match s with
  | [] => []
  | c :: s' => if isspace c then lstrip s' else s
  end.

Definition rstrip (s : str) : str := rev (lstrip (rev s)).

Definition strip (s : str) : str := rstrip (lstrip s).

(** *** [split] and [join] *)

Definition newline : char := 10%N.

(** [s.split(sep)] for a one-character separator: the pieces between the
    separators, empty pieces included; never the empty list. *)
Fixpoint split (sep : char) (s : str) : list str :=
  match s with
  | [] => [[]]
  | c :: s' =>
      if char_eqb c sep then [] :: split sep s'
      else match split sep s' with
           | [] => [[c]]
           | piece :: pieces => (c :: piece) :: pieces
           end
  end.

Fixpoint join (sep : str) (parts : list str) : str :=
  match parts with
  | [] => []
  | [p] => p
  | p :: rest => p ++ sep ++ join sep rest
  end.

(** The pieces of [a ++ b] from the pieces of [a] and of [b]: the last piece
    of [a] and the first piece of [b] are one piece. *)
Fixpoint glue (xs ys : list str) : list str :=
  match xs with
  | [] => ys
  | [x] => match ys with
           | [] => [x]
           | y :: ys' => (x ++ y) :: ys'
           end
  | x :: xs' => x :: glue xs' ys
  end.

Definition blank (line : str) : bool := forallb isspace line.

Definition one_line (line : str) : bool := negb (existsb (char_eqb newline) line).

End PyStr.

Import PyStr.

(* ================================================================= *)
(** ** The [re] fragment of the code patterns *)

Module Re.

Definition ch (a : ascii) : char := N_of_ascii a.

(** Members of a bracket expression, and the atoms of the patterns. *)
Inductive item :=
| Range (lo hi : char)
| One (c : char).

Inductive atom :=
| Class (items : list item)   (* [...] *)
| Digit                       (* \d *)
| Lit (c : char).             (* a literal or escaped character *)

Inductive regex :=
| Void
| Eps
| Atom (a : atom)
| Seq (r1 r2 : regex)
| Alt (r1 r2 : regex)
| Star (r : regex).

(** [r+] *)
Definition Plus (r : regex) : regex := Seq r (Star r).

(** A compiled pattern: its body, and whether it ends in [$]. The leading
    [^] of the source patterns adds nothing under [re.match], which only
    matches at the start of the text. *)
Record pattern := { body : regex; dollar : bool }.

Definition item_mem (i : item) (c : char) : bool :=
  match i with
  | Range lo hi => (lo <=? c)%N && (c <=? hi)%N
  | One x => char_eqb c x
  end.

Section Engine.

(** The decimal digits (category Nd) above ASCII, as the running
    interpreter's Unicode database lists them. *)
Variable nd_table : char -> bool.

(** [\d] on a [str] pattern: a Unicode decimal digit. *)
Definition isdecimal (c : char) : bool :=
  if (c <? 128)%N then (48 <=? c)%N && (c <=? 57)%N else nd_table c.

Definition atom_mem (a : atom) (c : char) : bool :=
  match a with
  | Class items => existsb (fun i => item_mem i c) items
  | Digit => isdecimal c
  | Lit x => char_eqb c x
  end.

Fixpoint nullable (r : regex) : bool :=
  match r with
  | Void => false
  | Eps => true
  | Atom _ => false
  | Seq r1 r2 => nullable r1 && nullable r2
  | Alt r1 r2 => nullable r1 || nullable r2
  | Star _ => true
  end.

Fixpoint deriv (c : char) (r : regex) : regex :=
  match r with
  | Void => Void
  | Eps => Void
  | Atom a => if atom_mem a c then Eps else Void
  | Seq r1 r2 =>
      if nullable r1 then Alt (Seq (deriv c r1) r2) (deriv c r2)
      else Seq (deriv c r1) r2
  | Alt r1 r2 => Alt (deriv c r1) (deriv c r2)
  | Star r1 => Seq (deriv c r1) (Star r1)
  end.

(** Where [$] matches (no MULTILINE flag): at the end of the text, or just
    before a newline that ends the text. *)
Definition at_dollar (rest : str) : bool :=
  match rest with
  | [] => true
  | [c] => char_eqb c newline
  | _ => false
  end.

Definition tail_ok (d : bool) (rest : str) : bool :=
  if d then at_dollar rest else true.

(** Does some prefix of [s] belong to [r], with the rest accepted by the
    pattern's end? *)
Fixpoint match_from (r : regex) (d : bool) (s : str) : bool :=
  (nullable r && tail_ok d s)
  || match s with
     | [] => false
     | c :: s' => match_from (deriv c r) d s'
     end.

(** Truth value of [re.match(p, text)]. *)
Definition re_match (p : pattern) (text : str) : bool :=
  match_from (body p) (dollar p) text.

(** *** Language of a regular expression *)

Inductive lang : regex -> str -> Prop :=
| L_eps : lang Eps []
| L_atom a c : atom_mem a c = true -> lang (Atom a) [c]
| L_seq r1 r2 u v : lang r1 u -> lang r2 v -> lang (Seq r1 r2) (u ++ v)
| L_alt_l r1 r2 u : lang r1 u -> lang (Alt r1 r2) u
| L_alt_r r1 r2 u : lang r2 u -> lang (Alt r1 r2) u
| L_star_nil r : lang (Star r) []
| L_star_app r u v : lang r u -> lang (Star r) v -> lang (Star r) (u ++ v).

End Engine.

End Re.

(* ================================================================= *)
(** ** The translator *)

Module Translator.
Import Re.

(** *** Data *)

(** The tree view [ET.fromstring] returns, with the parts the program reads:
    an element's tag, its [text] (the character data before its first child,
    [None] when there is none) and its child elements in document order. *)
Inductive element :=
| Element (tag : str) (text : option str) (children : list element).

(** An entry of [translatable_texts]: the dict built in [extract_texts]. *)
Record node := {
  path : str;
  tag : str;
  original_text : str;
  element_full_match : str
}.

(** The instance attributes the methods read and write. [namespaces] is
    set to an empty dict by [__init__] and never used again. *)
Record MUITranslator := {
  translatable_texts : list node;
  original_structure : option str
}.

(** [MUITranslator()] *)
Definition init : MUITranslator :=
  {| translatable_texts := []; original_structure := None |}.

(** The exceptions the methods raise, by the message they carry. *)
Inductive gateway_fault :=
| BadStatus (status_code : nat)  (* "Błąd tłumaczenia: <status>" *)
| NoUsableReply.                 (* [requests.post] or the payload access raised *)

Inductive error :=
| InvalidMuiFile                        (* "Nieprawidłowy format pliku .mui" *)
| MissingApiKey                         (* "Brak klucza API Claude" *)
| TranslationFailed (f : gateway_fault) (* "Nie udało się przetłumaczyć tekstów" *)
| ReconstructionFailed                  (* "Nie udało się zrekonstruować pliku" *)
| UndecodableUpload.                    (* [decode('utf-8')] raised *)

(** The request sent to the translation service and what comes back. *)
Record api_request := {
  x_api_key : str;
  model : str;
  max_tokens : nat;
  content : str
}.

Inductive api_reply :=
| NoReply
| Reply (status_code : nat) (text : option str).
  (* [text]: [response.json()['content'][0]['text']], [None] when the payload
     has no such string *)

(** A computation that may raise and that records the requests it posts. *)
Definition io (A : Type) : Type := (error + A) * list api_request.

Definition ret {A} (a : A) : io A := (inr a, []).
Definition raise {A} (e : error) : io A := (inl e, []).
Definition lift {A} (r : error + A) : io A := (r, []).

Definition bind {A B} (m : io A) (k : A -> io B) : io B :=
  match m with
  | (inl e, log) => (inl e, log)
  | (inr a, log) => let (r, log') := k a in (r, log ++ log')
  end.

Notation "x <- m ;; k" := (bind m (fun x => k))
  (at level 61, m at next level, right associativity).

(** *** The pipeline *)

Section Pipeline.

(** [ET.fromstring]; [None] stands for [ET.ParseError]. *)
Variable fromstring : str -> option element.

(** The decimal digits above ASCII, for [\d]. *)
Variable nd_table : char -> bool.

(** [os.environ.get('CLAUDE_API_KEY')] *)
Variable CLAUDE_API_KEY : option str.

(** [requests.post(CLAUDE_API_URL, headers=..., json=...)] *)
Variable post : api_request -> api_reply.

(** [datetime.now().strftime('%Y-%m-%d %H:%M:%S')] *)
Variable now : str.

(** [str.lower] *)
Variable lower : str -> str.

(** **** [is_code_like] *)

Definition upper : item := Range (ch "A") (ch "Z").
Definition lower_az : item := Range (ch "a") (ch "z").
Definition digit09 : item := Range (ch "0") (ch "9").
Definition underscore : item := One (ch "_").

(** [[a-zA-Z0-9._-]] *)
Definition id_char : atom :=
  Class [lower_az; upper; digit09; One (ch "."); underscore; One (ch "-")].

(** ^[A-Z_][A-Z0-9_]*$ *)
Definition upper_case_constant : pattern :=
  {| body := Seq (Atom (Class [upper; underscore]))
                 (Star (Atom (Class [upper; digit09; underscore])));
     dollar := true |}.

(** ^\d+$ *)
Definition digits_only : pattern :=
  {| body := Plus (Atom Digit); dollar := true |}.

(** ^[a-zA-Z0-9._-]+\.[a-zA-Z0-9._-]+$ *)
Definition dotted_id : pattern :=
  {| body := Seq (Plus (Atom id_char))
                 (Seq (Atom (Lit (ch "."))) (Plus (Atom id_char)));
     dollar := true |}.

(** ^#[0-9A-Fa-f]+$ *)
Definition hex_color : pattern :=
  {| body := Seq (Atom (Lit (ch "#")))
                 (Plus (Atom (Class [digit09; Range (ch "A") (ch "F");
                                     Range (ch "a") (ch "f")])));
     dollar := true |}.

(** ^\$[a-zA-Z_] *)
Definition dollar_variable : pattern :=
  {| body := Seq (Atom (Lit (ch "$")))
                 (Atom (Class [lower_az; upper; underscore]));
     dollar := false |}.

Definition code_patterns : list pattern :=
  [upper_case_constant; digits_only; dotted_id; hex_color; dollar_variable].

Definition is_code_like (text : str) : bool :=
  if existsb (fun p => re_match nd_table p text) code_patterns then true
  else if List.length text <? 2 then true
  else false.

(** **** [parse_mui_file] *)

Definition BOM : char := 65279%N.

(** The dict appended for a child with translatable text. *)
Definition make_node (current_path child_tag text : str) : node :=
  {| path := current_path;
     tag := child_tag;
     original_text := text;
     element_full_match :=
       lit "<" ++ child_tag ++ lit ">" ++ text ++ lit "</" ++ child_tag ++ lit ">" |}.

(** What one child contributes before its own children are searched. *)
Definition own_nodes (current_path child_tag : str) (child_text : option str)
  : list node :=
  match child_text with
  | Some t =>
      let text := strip t in
      match text with
      | [] => []
      | _ :: _ =>
          if negb (is_code_like text) then [make_node current_path child_tag text]
          else []
      end
  | None => []
  end.

Definition child_path (path child_tag : str) : str :=
  match path with
  | [] => child_tag
  | _ :: _ => path ++ lit "/" ++ child_tag
  end.

(** The closure [extract_texts(element, path)]; what it appends to
    [translatable_elements], in the order it appends. *)
Fixpoint extract_texts (element : element) (path : str) {struct element}
  : list node :=
  match element with
  | Element _ _ children =>
      (fix each (cs : list Translator.element) : list node :=
         match cs with
         | [] => []
         | child :: cs' =>
             match child with
             | Element child_tag child_text _ =>
                 let current_path := child_path path child_tag in
                 own_nodes current_path child_tag child_text
                 ++ extract_texts child current_path
                 ++ each cs'
             end
         end) children
  end.

Definition strip_bom (file_content : str) : str :=
  let file_content :=
    if startswith file_content [BOM] then skipn 1 file_content
    else file_content in
  remove_char BOM file_content.

Definition parse_mui_file (self : MUITranslator) (file_content : str)
  : error + (MUITranslator * list node) :=
  let file_content := strip_bom file_content in
  match fromstring file_content with
  | None => inl InvalidMuiFile
  | Some root =>
      let translatable_elements := extract_texts root [] in
      inr ({| translatable_texts := translatable_elements;
              original_structure := Some file_content |},
           translatable_elements)
  end.

(** **** [translate_texts] *)

Definition prompt_head : str := lit
"Jesteś ekspertem tłumaczeń technicznych dla oprogramowania maszyn laserowych (wycinarki, grawerki).
Tłumacz z angielskiego na polski zachowując:
- Kontekst techniczny przemysłu laserowego i CNC
- Terminologię branżową (np. Pierce Method = Metoda przebicia, Laser Type = Typ lasera)
- Spójność z oprogramowaniem CNC/CAM
- Naturalność języka polskiego

WAŻNE ZASADY:
- Tłumacz TYLKO znaczenie, zachowaj długość podobną do oryginału
- Używaj polskich terminów technicznych z branży laserowej
- Nie dodawaj wyjaśnień ani komentarzy
- Zachowaj styl UI (krótkie, zwięzłe etykiety)

Teksty do tłumaczenia (po jednym w linii):
".

Definition prompt_tail : str := lit
"

Zwróć TYLKO przetłumaczone teksty w tej samej kolejności, po jednym w linii:".

Definition make_request (key : str) (texts_list : list str) : api_request :=
  {| x_api_key := key;
     model := lit "claude-3-sonnet-20240229";
     max_tokens := 2000;
     content := prompt_head ++ join [newline] texts_list ++ prompt_tail |}.

(** [[line.strip() for line in translated_text.split('\n') if line.strip()]] *)
Fixpoint stripped_lines (lines : list str) : list str :=
  match lines with
  | [] => []
  | line :: rest =>
      match strip line with
      | [] => stripped_lines rest
      | (_ :: _) as l => l :: stripped_lines rest
      end
  end.

(** The loop [while len(translations) < len(texts_list)]: each round appends
    [texts_list[len(translations)]]. [rounds] bounds the number of rounds;
    the index is in range whenever the loop condition holds. *)
Fixpoint backfill (rounds : nat) (translations texts_list : list str)
  : list str :=
  match rounds with
  | O => translations
  | S rounds' =>
      if List.length translations <? List.length texts_list then
        match nth_error texts_list (List.length translations) with
        | Some original => backfill rounds' (translations ++ [original]) texts_list
        | None => translations
        end
      else translations
  end.

(** The lines of a reply that count as translations. *)
Definition parse_reply (text : str) : list str :=
  let translated_text := strip text in
  stripped_lines (split newline translated_text).

(** What is done with the text of a 200 reply. *)
Definition align (text : str) (texts_list : list str) : list str :=
  let translations := parse_reply text in
  if negb (List.length translations =? List.length texts_list) then
    backfill (List.length texts_list - List.length translations)
             translations texts_list
  else translations.

Definition translate_texts (texts_to_translate : list node) : io (list str) :=
  match CLAUDE_API_KEY with
  | None | Some [] => raise MissingApiKey
  | Some key =>
      let texts_list := map original_text texts_to_translate in
      let request := make_request key texts_list in
      (match post request with
       | NoReply => inl (TranslationFailed NoUsableReply)
       | Reply status_code payload =>
           if negb (status_code =? 200) then
             inl (TranslationFailed (BadStatus status_code))
           else
             match payload with
             | None => inl (TranslationFailed NoUsableReply)
             | Some text => inr (align text texts_list)
             end
       end, [request])
  end.

(** [not CLAUDE_API_KEY]: the key is unset or empty. *)
Definition unconfigured : Prop :=
  CLAUDE_API_KEY = None \/ CLAUDE_API_KEY = Some [].

(** **** [reconstruct_mui_file] *)

Definition translated_match (item : node) (translation : str) : str :=
  lit "<" ++ tag item ++ lit ">" ++ translation ++ lit "</" ++ tag item ++ lit ">".

(** One round of the loop over [enumerate(self.translatable_texts)]. *)
Definition substitute (translations : list str) (i : nat) (item : node)
  (reconstructed_content : str) : str :=
  match nth_error translations i with
  | Some translation =>
      replace_first reconstructed_content (element_full_match item)
                    (translated_match item translation)
  | None => reconstructed_content
  end.

Fixpoint substitute_from (translations : list str) (i : nat)
  (items : list node) (reconstructed_content : str) : str :=
  match items with
  | [] => reconstructed_content
  | item :: rest =>
      substitute_from translations (S i) rest
                      (substitute translations i item reconstructed_content)
  end.

(** Every exception of the body, the validation's included, leaves as the
    same wrapped exception; an unset [original_structure] raises when the
    body first uses it. *)
Definition reconstruct_mui_file (self : MUITranslator) (translations : list str)
  : error + str :=
  match original_structure self with
  | None => inl ReconstructionFailed
  | Some original =>
      let reconstructed_content :=
        substitute_from translations 0 (translatable_texts self) original in
      match fromstring reconstructed_content with
      | Some _ => inr reconstructed_content
      | None => inl ReconstructionFailed
      end
  end.

(** What extraction guarantees of a node: its snippet is its tag around its
    text, and the text is trimmed, not empty and not code-like. *)
Definition extracted (n : node) : Prop :=
  element_full_match n = translated_match n (original_text n)
  /\ original_text n <> []
  /\ strip (original_text n) = original_text n
  /\ is_code_like (original_text n) = false.

(** **** [generate_translation_report] *)

Definition report_header (translations : list str) : list str := [
  lit "=== RAPORT TŁUMACZENIA PLIKU .MUI ===";
  lit "Data: " ++ now;
  lit "Liczba przetłumaczonych elementów: " ++ str_of_nat (List.length translations);
  lit "";
  lit "SZCZEGÓŁY TŁUMACZEŃ:";
  lit ""
].

Definition report_record (item : node) (translation : str) : list str := [
  lit "Element: " ++ tag item;
  lit "Oryginał: " ++ original_text item;
  lit "Tłumaczenie: " ++ translation;
  lit "Ścieżka: " ++ path item;
  lit "---"
].

Fixpoint report_records (translations : list str) (i : nat) (items : list node)
  : list str :=
  match items with
  | [] => []
  | item :: rest =>
      match nth_error translations i with
      | Some translation => report_record item translation
      | None => []
      end ++ report_records translations (S i) rest
  end.

Definition generate_translation_report (self : MUITranslator)
  (translations : list str) : str :=
  join [newline]
       (report_header translations
        ++ report_records translations 0 (translatable_texts self)).

(** **** The endpoint [/translate] *)

(** [request.files.get('file')]: the uploaded file's name and its bytes
    decoded as UTF-8, [None] when they do not decode. *)
Record upload := {
  filename : str;
  decoded : option str
}.

Inductive rejection :=
| NoFileInRequest       (* "Brak pliku w żądaniu" *)
| NoFileSelected        (* "Nie wybrano pliku" *)
| NotMuiExtension       (* "Plik musi mieć rozszerzenie .mui" *)
| NoTranslatableTexts.  (* "Nie znaleziono tekstów do tłumaczenia w pliku" *)

Inductive response :=
| BadRequest (why : rejection)            (* status 400 *)
| ServerError (e : error)                 (* status 500 *)
| Archive (translated_file report : str). (* the zip with both files *)

Definition endswith (s suffix : str) : bool :=
  startswith (rev s) (rev suffix).

(** Steps 1 to 4 of the endpoint, for the decoded upload. *)
Definition process (file_content : str) : io (response) :=
  let translator := init in
  parsed <- lift (parse_mui_file translator file_content) ;;
  let '(translator, translatable_texts) := parsed in
  match translatable_texts with
  | [] => ret (BadRequest NoTranslatableTexts)
  | _ :: _ =>
      translations <- translate_texts translatable_texts ;;
      reconstructed_content <- lift (reconstruct_mui_file translator translations) ;;
      let report := generate_translation_report translator translations in
      ret (Archive reconstructed_content report)
  end.

(** The handler: a raised exception becomes the 500 response. *)
Definition translate_mui_file (file : option upload)
  : response * list api_request :=
  match file with
  | None => (BadRequest NoFileInRequest, [])
  | Some file =>
      match filename file with
      | [] => (BadRequest NoFileSelected, [])
      | _ :: _ =>
          if negb (endswith (lower (filename file)) (lit ".mui")) then
            (BadRequest NotMuiExtension, [])
          else
            match decoded file with
            | None => (ServerError UndecodableUpload, [])
            | Some file_content =>
                match process file_content with
                | (inr resp, log) => (resp, log)
                | (inl e, log) => (ServerError e, log)
                end
            end
      end
  end.

End Pipeline.

End Translator.

(* ================================================================= *)
(** ** The specification's reading of three operations *)

(** Definitions written after the specification's sentences, to be compared
    with the program's. *)

Module Spec.
Import Re Translator.

(** Rule 1 of the classifier: an upper-case letter or underscore, followed
    by upper-case letters, digits and underscores only. *)
Definition upper_or_underscore (c : char) : bool :=
  ((65 <=? c) && (c <=? 90))%N || (c =? 95)%N.

Definition upper_digit_underscore (c : char) : bool :=
  upper_or_underscore c || ((48 <=? c) && (c <=? 57))%N.

Definition upper_identifier (s : str) : bool :=
  match s with
  | [] => false
  | c :: rest => upper_or_underscore c && forallb upper_digit_underscore rest
  end.

(** Reconstruction with consumed occurrences: the working text is what has
    been settled so far followed by the remaining text; a node's snippet is
    searched in the remaining text only, and its occurrence, once replaced,
    joins the settled part. *)
Fixpoint substitute_remaining (translations : list str) (i : nat)
  (items : list node) (settled remaining : str) : str :=
  match items with
  | [] => settled ++ remaining
  | item :: rest =>
      match nth_error translations i, find remaining (element_full_match item) with
      | Some translation, Some k =>
          substitute_remaining translations (S i) rest
            (settled ++ firstn k remaining ++ translated_match item translation)
            (skipn (k + List.length (element_full_match item)) remaining)
      | _, _ => substitute_remaining translations (S i) rest settled remaining
      end
  end.


End Spec.

(* ================================================================= *)
(** ** A parser for attribute-free markup *)

(** An instance for the parser parameter: documents made of start tags, end
    tags, empty-element tags and character data, without attributes,
    references, comments or declarations; anything else is rejected. On
    these documents it builds the tree [ET.fromstring] builds. *)

Module Lite.
Import Re Translator.

Inductive token :=
| Open (name : str)
| Close (name : str)
| Empty (name : str)
| Text (s : str).

Definition name_start (c : char) : bool :=
  existsb (fun i => item_mem i c)
          [Range (ch "a") (ch "z"); Range (ch "A") (ch "Z"); One (ch "_"); One (ch ":")].

Definition name_char (c : char) : bool :=
  name_start c
  || existsb (fun i => item_mem i c)
             [Range (ch "0") (ch "9"); One (ch "-"); One (ch ".")].

Definition is_name (s : str) : bool :=
  match s with
  | [] => false
  | c :: s' => name_start c && forallb name_char s'
  end.

(** The token for the characters between [<] and [>]. *)
Definition tag_token (inner : str) : option token :=
  match inner with
  | [] => None
  | c :: rest =>
      if char_eqb c (ch "/") then
        if is_name rest then Some (Close rest) else None
      else
        match rev inner with
        | last :: init_rev =>
            if char_eqb last (ch "/") then
              if is_name (rev init_rev) then Some (Empty (rev init_rev)) else None
            else if is_name inner then Some (Open inner) else None
        | [] => None
        end
  end.

Inductive mode :=
| InText (seen : str)   (* character data so far, latest first *)
| InTag (seen : str).   (* tag characters so far, latest first *)

Definition flush_text (seen : str) (toks : list token) : list token :=
  match seen with
  | [] => toks
  | _ :: _ => Text (rev seen) :: toks
  end.

Fixpoint lex (m : mode) (s : str) : option (list token) :=
  match s, m with
  | [], InText seen => Some (flush_text seen [])
  | [], InTag _ => None
  | c :: s', InText seen =>
      if char_eqb c (ch "<") then option_map (flush_text seen) (lex (InTag []) s')
      else if char_eqb c (ch "&") then None
      else lex (InText (c :: seen)) s'
  | c :: s', InTag seen =>
      if char_eqb c (ch ">") then
        match tag_token (rev seen), lex (InText []) s' with
        | Some t, Some toks => Some (t :: toks)
        | _, _ => None
        end
      else if char_eqb c (ch "<") then None
      else lex (InTag (c :: seen)) s'
  end.

(** An open element: its tag, its text, its children so far (latest
    first). *)
Definition frame : Type := str * option str * list element.

Definition xml_space (c : char) : bool :=
  existsb (char_eqb c) [32; 9; 10; 13]%N.

(** Closing the top frame hands the finished element to its parent, or
    makes it the root. *)
Definition close_top (name : str) (stack : list frame) (root : option element)
  : option (list frame * option element) :=
  match stack with
  | [] => None
  | (t, txt, kids) :: up =>
      if str_eqb t name then
        let e := Element t txt (rev kids) in
        match up with
        | [] => Some ([], Some e)
        | (t', txt', kids') :: up' => Some ((t', txt', e :: kids') :: up', root)
        end
      else None
  end.

Definition open_new (name : str) (stack : list frame) (root : option element)
  : option (list frame) :=
  match stack, root with
  | [], Some _ => None
  | _, _ => Some ((name, None, []) :: stack)
  end.

Fixpoint build (toks : list token) (stack : list frame) (root : option element)
  : option element :=
  match toks with
  | [] => match stack with [] => root | _ :: _ => None end
  | Text s :: rest =>
      match stack with
      | [] => if forallb xml_space s then build rest [] root else None
      | (t, _, []) :: up => build rest ((t, Some s, []) :: up) root
      | (_, _, _ :: _) :: _ => build rest stack root
      end
  | Open name :: rest =>
      match open_new name stack root with
      | Some stack' => build rest stack' root
      | None => None
      end
  | Empty name :: rest =>
      match open_new name stack root with
      | Some stack' =>
          match close_top name stack' root with
          | Some (stack'', root') => build rest stack'' root'
          | None => None
          end
      | None => None
      end
  | Close name :: rest =>
      match close_top name stack root with
      | Some (stack', root') => build rest stack' root'
      | None => None
      end
  end.

Definition fromstring (s : str) : option element :=
  match lex (InText []) s with
  | Some toks => build toks [] None
  | None => None
  end.

(** A digit table with no entries above ASCII, and the identity for
    [lower], for running the pipeline on ASCII inputs. *)
Definition no_digits : char -> bool := fun _ => false.
Definition ascii_lower (s : str) : str :=
  map (fun c => if ((65 <=? c) && (c <=? 90))%N then (c + 32)%N else c) s.

End Lite.

(* ================================================================= *)
(** ** Sample data *)

Module Samples.
Import Translator.

Definition doc_abcd : str :=
  lit "<root><a>Pierce Method</a><b>ID_123</b><c><d>Laser Type</d></c></root>".

(** The tree of [doc_abcd]. *)
Definition tree_abcd : element :=
  Element (lit "root") None [
    Element (lit "a") (Some (lit "Pierce Method")) [];
    Element (lit "b") (Some (lit "ID_123")) [];
    Element (lit "c") None [
      Element (lit "d") (Some (lit "Laser Type")) []
    ]
  ].

Definition node_a : node :=
  {| path := lit "a"; tag := lit "a"; original_text := lit "Pierce Method";
     element_full_match := lit "<a>Pierce Method</a>" |}.

Definition node_d : node :=
  {| path := lit "c/d"; tag := lit "d"; original_text := lit "Laser Type";
     element_full_match := lit "<d>Laser Type</d>" |}.

End Samples.

(** Inputs on which the theorems are run. *)
Module Runs.
Import Translator Samples.

Definition label_ok : node :=
  {| path := lit "label"; tag := lit "label"; original_text := lit "Ok";
     element_full_match := lit "<label>Ok</label>" |}.

Definition two_labels : str := lit "<r><label>Ok</label><label>Ok</label></r>".

Definition panel : upload :=
  {| filename := lit "panel.MUI"; decoded := Some doc_abcd |}.

Definition two_line_reply : api_request -> api_reply :=
  fun _ => Reply 200 (Some (lit "Metoda przebicia
Typ lasera")).

Definition run_panel : response * list api_request :=
  Translator.translate_mui_file Lite.fromstring Lite.no_digits
    (Some (lit "sk-test")) two_line_reply (lit "2024-05-17 09:30:00")
    Lite.ascii_lower (Some panel).

End Runs.

(* ================================================================= *)
(** ** The classifier without regular expressions *)

(** The six rules of [is_code_like] as tests on the characters of the
    text, for comparison with the patterns. *)

Module Direct.
Import Re Translator.

(** [[a-zA-Z0-9._-]] *)
Definition id_class (c : char) : bool :=
  (((97 <=? c) && (c <=? 122)) || ((65 <=? c) && (c <=? 90))
   || ((48 <=? c) && (c <=? 57)) || (c =? 46) || (c =? 95) || (c =? 45))%N.

(** [[0-9A-Fa-f]] *)
Definition hex_class (c : char) : bool :=
  (((48 <=? c) && (c <=? 57)) || ((65 <=? c) && (c <=? 70))
   || ((97 <=? c) && (c <=? 102)))%N.

(** [[a-zA-Z_]] *)
Definition letter_or_underscore (c : char) : bool :=
  (((97 <=? c) && (c <=? 122)) || ((65 <=? c) && (c <=? 90)) || (c =? 95))%N.

(** Rule 2: one or more decimal digits. *)
Definition digits (nd_table : char -> bool) (s : str) : bool :=
  match s with
  | [] => false
  | _ :: _ => forallb (isdecimal nd_table) s
  end.

(** Rule 3: identifier characters only, with a dot that is neither the
    first nor the last character. *)
Definition dotted (s : str) : bool :=
  forallb id_class s
  && match s with
     | [] => false
     | _ :: rest => existsb (fun c => char_eqb c 46%N) (removelast rest)
     end.

(** Rule 4: [#] and one or more hexadecimal digits. *)
Definition hex (s : str) : bool :=
  match s with
  | c :: (_ :: _) as h => char_eqb c 35%N && forallb hex_class h
  | _ => false
  end.

(** Rule 5: [$] and a letter or underscore, whatever follows. *)
Definition dollar_prefixed (s : str) : bool :=
  match s with
  | c :: d :: _ => char_eqb c 36%N && letter_or_underscore d
  | _ => false
  end.

(** The text without the newline it ends with, when it ends with one. *)
Definition before_final_newline (s : str) : option str :=
  match rev s with
  | c :: r => if char_eqb c newline then Some (rev r) else None
  | [] => None
  end.

(** A rule that ends in [$]: the whole text passes, or the text before
    its final newline does. *)
Definition to_end (rule : str -> bool) (s : str) : bool :=
  rule s
  || match before_final_newline s with
     | Some u => rule u
     | None => false
     end.

Definition code_like (nd_table : char -> bool) (s : str) : bool :=
  to_end Spec.upper_identifier s
  || to_end (digits nd_table) s
  || to_end dotted s
  || to_end hex s
  || dollar_prefixed s
  || (List.length s <? 2).

(** A character no rule that ends in [$] accepts: ASCII, and not a letter,
    digit, dot, underscore, hyphen, hash sign or newline. *)
Definition prose_char (c : char) : bool :=
  ((c <? 128) && negb (id_class c) && negb (c =? 35) && negb (c =? 10))%N.

(** The characters a rule that ends in [$] lets through. *)
Definition let_through (nd_table : char -> bool) (c : char) : bool :=
  id_class c || (c =? 35)%N || isdecimal nd_table c.

End Direct.

(* ================================================================= *)
(** ** The elements below the root *)

Module Walk.
Import Translator.

(** The elements below [element] in document order, parents before their
    children, each with the path [extract_texts] computes for it. *)
Fixpoint descendants (element : element) (path : str) {struct element}
  : list (str * Translator.element) :=
  match element with
  | Element _ _ children =>
      (fix each (cs : list Translator.element) : list (str * Translator.element) :=
         match cs with
         | [] => []
         | child :: cs' =>
             match child with
             | Element child_tag _ _ =>
                 let current_path := child_path path child_tag in
                 (current_path, child)
                   :: descendants child current_path ++ each cs'
             end
         end) children
  end.

Definition tag_of (e : element) : str :=
  match e with Element t _ _ => t end.

Definition text_of (e : element) : option str :=
  match e with Element _ x _ => x end.

(** What the element found at a path contributes to the nodes. *)
Definition contribution (nd_table : char -> bool) (d : str * element) : list node :=
  own_nodes nd_table (fst d) (tag_of (snd d)) (text_of (snd d)).

(** The translator after a parse that found [root]. *)
Definition parsed (nd_table : char -> bool) (file_content : str) (root : element)
  : MUITranslator :=
  {| translatable_texts := extract_texts nd_table root [];
     original_structure := Some (strip_bom file_content) |}.

(** A path ends with the tag: it is the tag, or something, a slash and the
    tag. *)
Definition ends_with_tag (n : node) : Prop :=
  path n = tag n \/ exists above, path n = above ++ lit "/" ++ tag n.

End Walk.

(* ================================================================= *)
(** ** Texts that survive the request and the reply *)

Module Lines.

(** A text as extraction leaves it: trimmed and not empty. *)
Definition clean (t : str) : Prop := strip t = t /\ t <> [].

End Lines.

(* ================================================================= *)
(** ** The status endpoints *)

Module Service.
Import Translator.

(** The JSON object of [/health]. *)
Record health := {
  status : str;
  service : str;
  health_timestamp : str
}.

(** The JSON object of [/test]. *)
Record test_info := {
  message : str;
  claude_api_configured : bool;
  test_timestamp : str
}.

Section Endpoints.

(** [os.environ.get('CLAUDE_API_KEY')] *)
Variable CLAUDE_API_KEY : option str.

(** [datetime.now().isoformat()] *)
Variable now_iso : str.

Definition health_check : health :=
  {| status := lit "healthy";
     service := lit "MUI Translator";
     health_timestamp := now_iso |}.

(** [bool(CLAUDE_API_KEY)] *)
Definition key_truth : bool :=
  match CLAUDE_API_KEY with
  | None | Some [] => false
  | Some (_ :: _) => true
  end.

Definition test_endpoint : test_info :=
  {| message := lit "System MUI Translator działa poprawnie!";
     claude_api_configured := key_truth;
     test_timestamp := now_iso |}.

End Endpoints.

End Service.

(* ================================================================= *)
(** ** More sample inputs *)

Module MoreRuns.
Import Translator Samples.

Definition sample_texts : list str := [lit "Pierce Method"; lit "Laser Type"].

(** A service that repeats the lines it was sent. *)
Definition echo_of (texts : list str) : api_request -> api_reply :=
  fun _ => Reply 200 (Some (join [newline] texts)).

(** A service that is down. *)
Definition unavailable : api_request -> api_reply :=
  fun _ => Reply 503 None.

Definition node_two_lines : node :=
  {| path := lit "hint"; tag := lit "hint";
     original_text := lit "Press start
then wait";
     element_full_match := lit "<hint>Press start
then wait</hint>" |}.

(** A document whose text is padded with spaces inside the element. *)
Definition padded_doc : str := lit "<r><a> Hello world </a></r>".

Definition padded_node : node :=
  {| path := lit "a"; tag := lit "a"; original_text := lit "Hello world";
     element_full_match := lit "<a>Hello world</a>" |}.

Definition padded_state : MUITranslator :=
  {| translatable_texts := [padded_node];
     original_structure := Some padded_doc |}.

Definition sample_state : MUITranslator :=
  {| translatable_texts := [node_a; node_d];
     original_structure := Some doc_abcd |}.

(** A document with text in the root only. *)
Definition root_only_doc : str := lit "<label>Hello world</label>".

Definition root_only : upload :=
  {| filename := lit "root.mui"; decoded := Some root_only_doc |}.

Definition stamp : str := lit "2024-05-17 09:30:00".

Definition key : str := lit "sk-test".

End MoreRuns.

(* ================================================================= *)
(** ** Facts about the string operations *)

Module PyStrFacts.

Lemma char_eqb_eq a b : char_eqb a b = true <-> a = b.
Proof. apply N.eqb_eq. Qed.

Lemma char_eqb_refl a : char_eqb a a = true.
Proof. apply N.eqb_refl. Qed.

Lemma startswith_app s old : startswith (old ++ s) old = true.
Proof.
  induction old as [| c old IH]; simpl; [reflexivity |].
  now rewrite char_eqb_refl, IH.
Qed.

Lemma startswith_split s old :
  startswith s old = true -> s = old ++ skipn (List.length old) s.
Proof.
  revert s. induction old as [| c old IH]; intros s H; [reflexivity |].
  destruct s as [| x s]; simpl in H; [discriminate |].
  apply andb_true_iff in H as [Hc Hs]. apply char_eqb_eq in Hc. subst x.
  simpl. f_equal. now apply IH.
Qed.

Lemma startswith_iff s old :
  startswith s old = true <-> exists post, s = old ++ post.
Proof.
  split.
  - intros H. eexists. now apply startswith_split.
  - intros [post ->]. apply startswith_app.
Qed.

(** Replacing a snippet by itself changes nothing, found or not. *)
Lemma replace_first_same old : forall s, replace_first s old old = s.
Proof.
  induction s as [| c s IH]; simpl.
  - destruct (startswith [] old) eqn:H; [| reflexivity].
    symmetry. now apply startswith_split.
  - destruct (startswith (c :: s) old) eqn:H.
    + symmetry. now apply startswith_split.
    + now rewrite IH.
Qed.

(** [find] returns the leftmost position at which [old] starts. *)
Lemma find_Some s old : forall k,
  find s old = Some k ->
  s = firstn k s ++ old ++ skipn (k + List.length old) s
  /\ forall j, j < k -> startswith (skipn j s) old = false.
Proof.
  induction s as [| c s IH]; intros k; simpl.
  - destruct (startswith [] old) eqn:H; [| discriminate].
    intros [= <-]. split; [| intros j Hj; inversion Hj].
    now apply startswith_split.
  - destruct (startswith (c :: s) old) eqn:H.
    + intros [= <-]. split; [| intros j Hj; inversion Hj].
      now apply startswith_split.
    + destruct (find s old) as [k' |] eqn:Hf; [| discriminate].
      intros [= <-]. destruct (IH k' eq_refl) as [Heq Hmin]. split.
      * simpl. now rewrite <- Heq.
      * intros [| j] Hj; [exact H |]. simpl. apply Hmin. lia.
Qed.

Lemma find_None s old :
  find s old = None <-> forall pre post, s <> pre ++ old ++ post.
Proof.
  induction s as [| c s IH]; simpl.
  - destruct (startswith [] old) eqn:H; split; intro Hn; try discriminate.
    + exfalso. apply (Hn [] (skipn (List.length old) [])).
      now apply startswith_split.
    + intros pre post Heq. destruct pre; [| discriminate].
      simpl in Heq. rewrite Heq, startswith_app in H. discriminate.
    + reflexivity.
  - destruct (startswith (c :: s) old) eqn:H; split; intro Hn; try discriminate.
    + exfalso. apply (Hn [] (skipn (List.length old) (c :: s))).
      now apply startswith_split.
    + destruct (find s old) eqn:Hf; [discriminate |].
      intros pre post Heq. destruct pre as [| x pre].
      * simpl in Heq. rewrite Heq, startswith_app in H. discriminate.
      * injection Heq as _ Heq. destruct IH as [IH _].
        now apply (IH eq_refl pre post).
    + destruct (find s old) eqn:Hf; [| reflexivity]. exfalso.
      destruct IH as [_ IH]. assert (Hno : @None nat = None) by reflexivity.
      assert (Hs : forall pre post, s <> pre ++ old ++ post).
      { intros pre post Heq. apply (Hn (c :: pre) post). simpl. now f_equal. }
      specialize (IH Hs). discriminate.
Qed.

Lemma replace_first_found s old new : forall k,
  find s old = Some k ->
  replace_first s old new = firstn k s ++ new ++ skipn (k + List.length old) s.
Proof.
  induction s as [| c s IH]; intros k; simpl.
  - destruct (startswith [] old); [| discriminate]. now intros [= <-].
  - destruct (startswith (c :: s) old).
    + now intros [= <-].
    + destruct (find s old) as [k' |]; [| discriminate].
      intros [= <-]. simpl. f_equal. now apply IH.
Qed.

Lemma replace_first_absent s old new :
  find s old = None -> replace_first s old new = s.
Proof.
  induction s as [| c s IH]; simpl.
  - now destruct (startswith [] old).
  - destruct (startswith (c :: s) old); [discriminate |].
    destruct (find s old); [discriminate |]. intros _. now rewrite IH.
Qed.

(** *** [strip] *)

Lemma lstrip_app_space s t :
  forallb isspace s = true -> lstrip (s ++ t) = lstrip t.
Proof.
  induction s as [| c s IH]; simpl; [reflexivity |].
  intros H. apply andb_true_iff in H as [Hc Hs]. now rewrite Hc, IH.
Qed.

Lemma lstrip_nil_iff s : lstrip s = [] <-> forallb isspace s = true.
Proof.
  induction s as [| c s IH]; simpl; [tauto |].
  destruct (isspace c); simpl; [exact IH |]. split; discriminate.
Qed.

Lemma forallb_rev {A} (f : A -> bool) l : forallb f (rev l) = forallb f l.
Proof.
  induction l as [| a l IH]; simpl; [reflexivity |].
  rewrite forallb_app, IH. simpl. rewrite andb_true_r. apply andb_comm.
Qed.

Lemma lstrip_spaces s : forallb isspace (lstrip s) = forallb isspace s.
Proof.
  induction s as [| c s IH]; simpl; [reflexivity |].
  destruct (isspace c) eqn:Hc; simpl; [exact IH | now rewrite Hc].
Qed.

(** A line strips to nothing exactly when it is blank. *)
Lemma strip_nil_iff s : strip s = [] <-> forallb isspace s = true.
Proof.
  unfold strip, rstrip. split.
  - intros H. apply (f_equal (@rev char)) in H. rewrite rev_involutive in H.
    simpl in H. apply lstrip_nil_iff in H. rewrite forallb_rev in H.
    now rewrite lstrip_spaces in H.
  - intros H. rewrite <- lstrip_spaces, <- forallb_rev in H.
    apply lstrip_nil_iff in H. now rewrite H.
Qed.

Lemma lstrip_idem s : lstrip (lstrip s) = lstrip s.
Proof.
  induction s as [| c s IH]; simpl; [reflexivity |].
  destruct (isspace c) eqn:Hc; [exact IH |]. simpl. now rewrite Hc.
Qed.

Lemma lstrip_keep s t : lstrip s <> [] -> lstrip (s ++ t) = lstrip s ++ t.
Proof.
  induction s as [| c s IH]; simpl; [congruence |].
  destruct (isspace c); [exact IH | reflexivity].
Qed.

Lemma strip_space_l sp s : blank sp = true -> strip (sp ++ s) = strip s.
Proof. intros H. unfold strip. now rewrite lstrip_app_space. Qed.

Lemma rstrip_space_r s sp : blank sp = true -> rstrip (s ++ sp) = rstrip s.
Proof.
  intros H. unfold rstrip. rewrite rev_app_distr, lstrip_app_space; auto.
  unfold blank in H. now rewrite forallb_rev.
Qed.

Lemma strip_space_r s sp : blank sp = true -> strip (s ++ sp) = strip s.
Proof.
  intros H. unfold strip. destruct (lstrip s) eqn:Hs.
  - apply lstrip_nil_iff in Hs.
    assert (Hall : forallb isspace (s ++ sp) = true).
    { rewrite forallb_app, Hs. exact H. }
    apply lstrip_nil_iff in Hall. now rewrite Hall.
  - rewrite lstrip_keep by congruence. rewrite Hs. now apply rstrip_space_r.
Qed.

Lemma strip_blank s : blank s = true -> strip s = [].
Proof. apply strip_nil_iff. Qed.

(** What [lstrip] and [rstrip] remove is white space. *)
Lemma lstrip_decompose s : exists sp, blank sp = true /\ s = sp ++ lstrip s.
Proof.
  induction s as [| c s (sp & Hsp & Heq)]; [now exists [] |]. simpl.
  destruct (isspace c) eqn:Hc.
  - exists (c :: sp). simpl. rewrite Hc, Hsp. split; [reflexivity |]. now f_equal.
  - now exists [].
Qed.

Lemma rstrip_decompose s : exists sp, blank sp = true /\ s = rstrip s ++ sp.
Proof.
  unfold rstrip. destruct (lstrip_decompose (rev s)) as (sp & Hsp & Heq).
  exists (rev sp). split.
  - unfold blank in *. now rewrite forallb_rev.
  - rewrite <- rev_app_distr, <- Heq. now rewrite rev_involutive.
Qed.

(** *** [split] and [join] *)

Lemma split_cons_form sep s : exists piece pieces, split sep s = piece :: pieces.
Proof.
  destruct s as [| c s]; simpl; [now eexists; eexists |].
  destruct (char_eqb c sep); [now eexists; eexists |].
  destruct (split sep s); now eexists; eexists.
Qed.

Lemma split_app sep a b : split sep (a ++ b) = glue (split sep a) (split sep b).
Proof.
  induction a as [| c a IH]; simpl.
  - now destruct (split_cons_form sep b) as (p & ps & ->).
  - destruct (char_eqb c sep).
    + rewrite IH. now destruct (split_cons_form sep a) as (p & ps & ->).
    + rewrite IH. destruct (split sep a) as [| p [| q qs]]; simpl.
      * now destruct (split_cons_form sep b) as (p & ps & ->).
      * now destruct (split sep b).
      * reflexivity.
Qed.

Lemma split_one_line sep line :
  existsb (char_eqb sep) line = false -> split sep line = [line].
Proof.
  induction line as [| c line IH]; simpl; [reflexivity |].
  intros H. apply orb_false_iff in H as [Hc Hl].
  assert (Hc' : char_eqb c sep = false).
  { destruct (char_eqb c sep) eqn:E; [| reflexivity].
    apply char_eqb_eq in E. subst. now rewrite char_eqb_refl in Hc. }
  now rewrite Hc', IH.
Qed.

Lemma split_sep_cons sep s : split sep (sep :: s) = [] :: split sep s.
Proof. simpl. now rewrite char_eqb_refl. Qed.

(** Splitting undoes joining, for lines without the separator. *)
Lemma split_join sep line lines :
  forallb (fun l => negb (existsb (char_eqb sep) l)) (line :: lines) = true ->
  split sep (join [sep] (line :: lines)) = line :: lines.
Proof.
  revert line. induction lines as [| l lines IH]; intros line H.
  - simpl in *. rewrite andb_true_r in H. apply negb_true_iff in H.
    now apply split_one_line.
  - change (join [sep] (line :: l :: lines))
      with (line ++ sep :: join [sep] (l :: lines)).
    change (forallb _ (line :: l :: lines))
      with (negb (existsb (char_eqb sep) line)
            && forallb (fun l => negb (existsb (char_eqb sep) l)) (l :: lines)) in H.
    apply andb_true_iff in H as [Hl Hrest]. apply negb_true_iff in Hl.
    rewrite split_app, split_one_line by exact Hl.
    rewrite split_sep_cons, IH by exact Hrest.
    simpl. now rewrite app_nil_r.
Qed.

End PyStrFacts.
Example lit_ascii : lit "<a>" = [60; 97; 62]%N.
Proof. reflexivity. Qed.

Example lit_polish : lit "Oryginał" = [79; 114; 121; 103; 105; 110; 97; 322]%N.
Proof. reflexivity. Qed.

Example str_of_nat_42 : str_of_nat 42 = lit "42".
Proof. reflexivity. Qed.

Example str_of_nat_0 : str_of_nat 0 = lit "0".
Proof. reflexivity. Qed.

Example strip_both : strip (lit "  Laser Type
 ") = lit "Laser Type".
Proof. reflexivity. Qed.

Example split_lines : split newline (lit "a

b") = [lit "a"; lit ""; lit "b"].
Proof. reflexivity. Qed.

Example replace_first_once :
  replace_first (lit "xABxAB") (lit "AB") (lit "-") = lit "x-xAB".
Proof. reflexivity. Qed.


(* ================================================================= *)
(** ** The matcher against the language semantics *)

Module ReFacts.
Import Re.

Section Engine.

Variable nd_table : char -> bool.

Local Abbreviation lang := (Re.lang nd_table).
Local Abbreviation deriv := (Re.deriv nd_table).
Local Abbreviation atom_mem := (Re.atom_mem nd_table).
Local Abbreviation match_from := (Re.match_from nd_table).

Lemma lang_seq_inv r1 r2 w :
  lang (Seq r1 r2) w -> exists u v, w = u ++ v /\ lang r1 u /\ lang r2 v.
Proof. inversion 1; subst; eauto. Qed.

Lemma lang_alt_inv r1 r2 w : lang (Alt r1 r2) w -> lang r1 w \/ lang r2 w.
Proof. inversion 1; subst; auto. Qed.

Lemma lang_seq_cons r1 r2 c u v :
  lang r1 (c :: u) -> lang r2 v -> lang (Seq r1 r2) (c :: u ++ v).
Proof. intros Hu Hv. apply (L_seq Hu Hv). Qed.

Lemma nullable_lang r : nullable r = true <-> lang r [].
Proof.
  induction r; simpl.
  - split; [discriminate | inversion 1].
  - split; [constructor | reflexivity].
  - split; [discriminate | inversion 1].
  - rewrite andb_true_iff, IHr1, IHr2. split.
    + intros [H1 H2]. apply (L_seq H1 H2).
    + intros H. apply lang_seq_inv in H as (u & v & Heq & Hu & Hv).
      symmetry in Heq. apply app_eq_nil in Heq as [-> ->]. now split.
  - rewrite orb_true_iff, IHr1, IHr2. split.
    + intros [H | H]; [now apply L_alt_l | now apply L_alt_r].
    + apply lang_alt_inv.
  - split; [constructor | reflexivity].
Qed.

Lemma star_cons r c s :
  lang (Star r) (c :: s) ->
  exists u v, s = u ++ v /\ lang r (c :: u) /\ lang (Star r) v.
Proof.
  intros H. remember (Star r) as q eqn:Eq. remember (c :: s) as w eqn:Ew.
  revert c s Ew. induction H; intros c0 s0 Ew; try discriminate.
  injection Eq as ->. destruct u as [| x u'].
  - simpl in Ew. apply IHlang2; auto.
  - simpl in Ew. injection Ew as -> <-. exists u', v. auto.
Qed.

Lemma deriv_lang c r : forall s, lang (deriv c r) s <-> lang r (c :: s).
Proof.
  induction r; intros s; simpl.
  - split; inversion 1.
  - split; inversion 1.
  - destruct (atom_mem a c) eqn:Ha; split; intros H.
    + inversion H; subst. now constructor.
    + inversion H; subst. constructor.
    + inversion H.
    + inversion H; subst. congruence.
  - assert (Hseq : forall t, lang (Seq (deriv c r1) r2) t ->
                             lang (Seq r1 r2) (c :: t)).
    { intros t Ht. apply lang_seq_inv in Ht as (u & v & -> & Hu & Hv).
      apply lang_seq_cons; auto. now apply IHr1. }
    assert (Hback : forall t, lang (Seq r1 r2) (c :: t) ->
                lang (Seq (deriv c r1) r2) t \/ (lang r1 [] /\ lang r2 (c :: t))).
    { intros t Ht. apply lang_seq_inv in Ht as (u & v & Heq & Hu & Hv).
      destruct u as [| x u'].
      - right. simpl in Heq. subst. auto.
      - left. simpl in Heq. injection Heq as <- ->.
        constructor; auto. now apply IHr1. }
    destruct (nullable r1) eqn:Hn.
    + split; intros H.
      * apply lang_alt_inv in H as [H | H]; [now apply Hseq |].
        apply nullable_lang in Hn. apply IHr2 in H. apply (L_seq Hn H).
      * destruct (Hback _ H) as [H' | [_ H']].
        -- now apply L_alt_l.
        -- apply L_alt_r. now apply IHr2.
    + split; intros H; [now apply Hseq |].
      destruct (Hback _ H) as [H' | [H' _]]; auto.
      apply nullable_lang in H'. congruence.
  - split; intros H.
    + apply lang_alt_inv in H as [H | H];
        [apply L_alt_l, IHr1 | apply L_alt_r, IHr2]; exact H.
    + apply lang_alt_inv in H as [H | H];
        [apply L_alt_l, IHr1 | apply L_alt_r, IHr2]; exact H.
  - split; intros H.
    + apply lang_seq_inv in H as (u & v & -> & Hu & Hv).
      apply IHr in Hu. apply (L_star_app Hu Hv).
    + apply star_cons in H as (u & v & -> & Hu & Hv).
      constructor; auto. now apply IHr.
Qed.

(** The matcher finds a match exactly when a prefix of the text belongs to
    the pattern's language and the pattern's end accepts what follows. *)
Lemma match_from_spec d s : forall r,
  match_from r d s = true <->
  exists u v, s = u ++ v /\ lang r u /\ tail_ok d v = true.
Proof.
  induction s as [| c s IH]; intros r; simpl.
  - rewrite orb_false_r, andb_true_iff, nullable_lang. split.
    + intros [H1 H2]. exists [], []. auto.
    + intros (u & v & Heq & Hu & Hv). symmetry in Heq.
      apply app_eq_nil in Heq as [-> ->]. auto.
  - rewrite orb_true_iff, andb_true_iff, nullable_lang, IH. split.
    + intros [[H1 H2] | (u & v & -> & Hu & Hv)].
      * exists [], (c :: s). auto.
      * exists (c :: u), v. repeat split; auto. now apply deriv_lang.
    + intros (u & v & Heq & Hu & Hv). destruct u as [| x u'].
      * simpl in Heq. subst v. auto.
      * simpl in Heq. injection Heq as <- ->. right.
        exists u', v. repeat split; auto. now apply deriv_lang.
Qed.

(** Strings of [a*] and [a+]. *)
Lemma lang_star_atoms a s :
  Forall (fun c => atom_mem a c = true) s -> lang (Star (Atom a)) s.
Proof.
  induction 1 as [| c s Hc _ IH]; [constructor |].
  change (c :: s) with ([c] ++ s). constructor; auto. now constructor.
Qed.

Lemma lang_plus_atoms a c s :
  atom_mem a c = true -> Forall (fun x => atom_mem a x = true) s ->
  lang (Plus (Atom a)) (c :: s).
Proof.
  intros Hc Hs. change (c :: s) with ([c] ++ s). constructor.
  - now constructor.
  - now apply lang_star_atoms.
Qed.

End Engine.

End ReFacts.

(* ================================================================= *)
(** ** The classifier *)

Import Re Translator.

Section Classifier.

Variable nd_table : char -> bool.

Local Abbreviation is_code_like := (Translator.is_code_like nd_table).
Local Abbreviation re_match := (Re.re_match nd_table).
Local Abbreviation lang := (Re.lang nd_table).
Local Abbreviation atom_mem := (Re.atom_mem nd_table).

Lemma re_match_whole p s :
  lang (body p) s -> re_match p s = true.
Proof.
  intros H. apply ReFacts.match_from_spec. exists s, [].
  rewrite app_nil_r. repeat split; auto. now destruct (dollar p).
Qed.

Lemma first_class_mem c :
  atom_mem (Class [upper; underscore]) c = Spec.upper_or_underscore c.
Proof.
  unfold Spec.upper_or_underscore. cbn. now rewrite orb_false_r.
Qed.

Lemma rest_class_mem c :
  atom_mem (Class [upper; digit09; underscore]) c = Spec.upper_digit_underscore c.
Proof.
  unfold Spec.upper_digit_underscore, Spec.upper_or_underscore. cbn.
  unfold char_eqb. btauto.
Qed.

Lemma upper_identifier_matches s :
  Spec.upper_identifier s = true -> re_match upper_case_constant s = true.
Proof.
  destruct s as [| c rest]; [discriminate |]. simpl.
  intros H. apply andb_true_iff in H as [Hc Hrest].
  apply re_match_whole. simpl.
  apply (@L_seq nd_table _ _ [c] rest).
  - constructor. now rewrite first_class_mem.
  - apply ReFacts.lang_star_atoms. rewrite forallb_forall in Hrest.
    apply Forall_forall. intros x Hx. rewrite rest_class_mem. now apply Hrest.
Qed.

Lemma decimals_match c s :
  forallb (isdecimal nd_table) (c :: s) = true -> re_match digits_only (c :: s) = true.
Proof.
  simpl. intros H. apply andb_true_iff in H as [Hc Hs].
  apply re_match_whole. simpl. apply ReFacts.lang_plus_atoms; [exact Hc |].
  rewrite forallb_forall in Hs. apply Forall_forall. intros x Hx. now apply Hs.
Qed.

(** C6. [is_code_like] is true for every string made of an upper-case
    letter or underscore followed by upper-case letters, digits and
    underscores, and for every string made of decimal digits only (the
    ASCII digits among them); it is true for "#FF00AA", "$variable" and
    "a", and false for "Pierce Method" and "Cutting Speed". *)
Theorem is_code_like_rules :
  (forall s, Spec.upper_identifier s = true -> is_code_like s = true)
  /\ (forall s, re_match upper_case_constant s = true -> is_code_like s = true)
  /\ (forall s, forallb (isdecimal nd_table) s = true -> is_code_like s = true)
  /\ (forall c, (48 <= c <= 57)%N -> isdecimal nd_table c = true)
  /\ is_code_like (lit "#FF00AA") = true
  /\ is_code_like (lit "$variable") = true
  /\ is_code_like (lit "a") = true
  /\ is_code_like (lit "Pierce Method") = false
  /\ is_code_like (lit "Cutting Speed") = false.
Proof.
  split; [| split; [| split; [| split]]].
  - intros s H. apply upper_identifier_matches in H.
    unfold Translator.is_code_like, code_patterns. cbn [existsb].
    now rewrite H.
  - intros s H. unfold Translator.is_code_like, code_patterns. cbn [existsb].
    now rewrite H.
  - intros [| c s] H; [reflexivity |]. apply decimals_match in H.
    unfold Translator.is_code_like, code_patterns. cbn [existsb].
    now rewrite H, orb_true_r.
  - intros c [Hlo Hhi]. unfold isdecimal.
    assert (Hlt : (c <? 128)%N = true) by (apply N.ltb_lt; lia).
    rewrite Hlt. apply andb_true_iff. split; now apply N.leb_le.
  - repeat split; vm_compute; reflexivity.
Qed.

End Classifier.

(* ================================================================= *)
(** ** Extraction *)

Lemma element_nested_ind (P : element -> Prop) :
  (forall t x children, Forall P children -> P (Element t x children)) ->
  forall e, P e.
Proof.
  intros step. fix IH 1. intros [t x children]. apply step.
  induction children as [| child children IHc]; constructor.
  - apply IH.
  - exact IHc.
Qed.

Section Extraction.

Variable fromstring : str -> option element.
Variable nd_table : char -> bool.

Local Abbreviation is_code_like := (Translator.is_code_like nd_table).
Local Abbreviation extract_texts := (Translator.extract_texts nd_table).
Local Abbreviation own_nodes := (Translator.own_nodes nd_table).
Local Abbreviation parse_mui_file := (Translator.parse_mui_file fromstring nd_table).
Local Abbreviation extracted := (Translator.extracted nd_table).

Lemma lstrip_fixed s : lstrip (lstrip s) = lstrip s.
Proof. apply PyStrFacts.lstrip_idem. Qed.

Lemma strip_idem s : strip (strip s) = strip s.
Proof.
  unfold strip at 1. destruct (PyStrFacts.lstrip_decompose (strip s)) as (sp & Hsp & Heq).
  destruct (strip s) as [| c r] eqn:Hs; [reflexivity |].
  assert (Hc : isspace c = false).
  { unfold strip, rstrip in Hs.
    destruct (lstrip s) as [| d l] eqn:Hl; [discriminate |].
    assert (Hd : isspace d = false).
    { destruct (isspace d) eqn:Hd; [| reflexivity].
      pose proof (lstrip_fixed s) as Hf. rewrite Hl in Hf. simpl in Hf.
      rewrite Hd in Hf.
      assert (Hlen : List.length (lstrip l) <= List.length l).
      { clear. induction l as [| a l IH]; simpl; [lia |].
        destruct (isspace a); simpl; lia. }
      rewrite Hf in Hlen. simpl in Hlen. lia. }
    destruct (PyStrFacts.rstrip_decompose (d :: l)) as (sp' & _ & Heq').
    unfold rstrip in Heq'. rewrite Hs in Heq'. simpl in Heq'.
    injection Heq' as -> _. exact Hd. }
  simpl. rewrite Hc. rewrite <- Hs. unfold strip, rstrip.
  rewrite rev_involutive. rewrite lstrip_fixed. reflexivity.
Qed.

Lemma own_nodes_extracted p t x : Forall extracted (own_nodes p t x).
Proof.
  destruct x as [x |]; simpl; [| constructor].
  destruct (strip x) as [| c r] eqn:Hs; [constructor |].
  destruct (is_code_like (c :: r)) eqn:Hc; simpl; constructor; [| constructor].
  unfold Translator.extracted. simpl. repeat split; auto; [discriminate |].
  rewrite <- Hs. apply strip_idem.
Qed.

(** The closure's result, child by child. *)
Lemma extract_texts_children t x children p :
  extract_texts (Element t x children) p =
  flat_map (fun child =>
              match child with
              | Element ct cx _ =>
                  own_nodes (child_path p ct) ct cx
                  ++ extract_texts child (child_path p ct)
              end) children.
Proof.
  simpl. induction children as [| [ct cx cc] children IH]; [reflexivity |].
  cbn [flat_map]. rewrite <- IH. now rewrite <- app_assoc.
Qed.

Lemma extract_texts_extracted e : forall p, Forall extracted (extract_texts e p).
Proof.
  induction e as [t x children IH] using element_nested_ind. intros p.
  rewrite extract_texts_children.
  induction IH as [| [ct cx cc] children Hchild _ IHrest]; [constructor |].
  cbn [flat_map]. rewrite !Forall_app. repeat split.
  - apply own_nodes_extracted.
  - apply Hchild.
  - exact IHrest.
Qed.

Lemma parse_mui_file_inv self file_content self' nodes :
  parse_mui_file self file_content = inr (self', nodes) ->
  exists root,
    fromstring (strip_bom file_content) = Some root
    /\ nodes = extract_texts root []
    /\ translatable_texts self' = nodes
    /\ original_structure self' = Some (strip_bom file_content).
Proof.
  unfold Translator.parse_mui_file.
  destruct (fromstring (strip_bom file_content)) as [root |]; [| discriminate].
  intros [= <- <-]. exists root. auto.
Qed.

(** C5. For the document
    <root><a>Pierce Method</a><b>ID_123</b><c><d>Laser Type</d></c></root>,
    parsed to its tree, extraction yields exactly two nodes in pre-order:
    tag "a" with text "Pierce Method", then tag "d" with text "Laser Type";
    "ID_123" is code-like, and "d" is reached through "c", which has no text
    of its own. *)
Theorem extraction_of_sample self :
  fromstring Samples.doc_abcd = Some Samples.tree_abcd ->
  exists self',
    parse_mui_file self Samples.doc_abcd = inr (self', [Samples.node_a; Samples.node_d])
    /\ translatable_texts self' = [Samples.node_a; Samples.node_d]
    /\ map (fun n => (tag n, original_text n)) [Samples.node_a; Samples.node_d]
       = [(lit "a", lit "Pierce Method"); (lit "d", lit "Laser Type")]
    /\ is_code_like (lit "ID_123") = true
    /\ own_nodes (lit "c") (lit "c") None = [].
Proof.
  intros Hparse. unfold Translator.parse_mui_file.
  replace (strip_bom Samples.doc_abcd) with Samples.doc_abcd by (vm_compute; reflexivity).
  rewrite Hparse. eexists. split; [| split; [| split; [| split]]].
  - vm_compute. reflexivity.
  - reflexivity.
  - reflexivity.
  - vm_compute. reflexivity.
  - reflexivity.
Qed.

End Extraction.

(* ================================================================= *)
(** ** The reply of the translation service *)

Section ReplyLines.

Import PyStrFacts.

Lemma stripped_lines_app xs ys :
  stripped_lines (xs ++ ys) = stripped_lines xs ++ stripped_lines ys.
Proof.
  induction xs as [| x xs IH]; simpl; [reflexivity |].
  destruct (strip x); simpl; now rewrite IH.
Qed.

Lemma stripped_lines_filter lines :
  stripped_lines lines = map strip (filter (fun l => negb (blank l)) lines).
Proof.
  induction lines as [| l lines IH]; simpl; [reflexivity |].
  destruct (strip l) as [| c r] eqn:Hs.
  - apply strip_nil_iff in Hs. unfold blank. now rewrite Hs.
  - assert (Hb : blank l = false).
    { destruct (blank l) eqn:Hb; [| reflexivity].
      apply strip_blank in Hb. congruence. }
    rewrite Hb. simpl. now rewrite Hs, IH.
Qed.

Lemma stripped_lines_nonempty lines : ~ In [] (stripped_lines lines).
Proof.
  induction lines as [| l lines IH]; simpl; [tauto |].
  destruct (strip l); [exact IH |]. intros [H | H]; [discriminate | tauto].
Qed.

Lemma stripped_lines_blank lines :
  forallb blank lines = true -> stripped_lines lines = [].
Proof.
  induction lines as [| l lines IH]; simpl; [reflexivity |].
  intros H. apply andb_true_iff in H as [Hl Hrest].
  now rewrite (strip_blank _ Hl), IH.
Qed.

Lemma split_blank w : blank w = true -> forallb blank (split newline w) = true.
Proof.
  induction w as [| c w IH]; simpl; [reflexivity |].
  intros H. apply andb_true_iff in H as [Hc Hw]. specialize (IH Hw).
  destruct (char_eqb c newline); simpl; [exact IH |].
  destruct (split newline w) as [| p ps].
  - simpl. now rewrite Hc.
  - cbn [forallb] in *. apply andb_true_iff in IH as [Hp Hps].
    rewrite Hps, andb_true_r. unfold blank in *. simpl. now rewrite Hc, Hp.
Qed.

Lemma stripped_glue_blank_r xs ys :
  forallb blank ys = true -> stripped_lines (glue xs ys) = stripped_lines xs.
Proof.
  intros Hys. induction xs as [| x [| x2 xs] IH].
  - simpl. now apply stripped_lines_blank.
  - destruct ys as [| y ys]; [reflexivity |]. simpl in Hys.
    apply andb_true_iff in Hys as [Hy Hrest].
    cbn [glue stripped_lines]. rewrite (strip_space_r _ _ Hy).
    now rewrite (stripped_lines_blank _ Hrest).
  - change (glue (x :: x2 :: xs) ys) with (x :: glue (x2 :: xs) ys).
    cbn [stripped_lines]. now rewrite IH.
Qed.

Lemma stripped_glue_blank_l xs ys :
  forallb blank xs = true -> stripped_lines (glue xs ys) = stripped_lines ys.
Proof.
  induction xs as [| x [| x2 xs] IH]; intros Hxs; [reflexivity | |].
  - simpl in Hxs. rewrite andb_true_r in Hxs. destruct ys as [| y ys].
    + simpl. now rewrite (strip_blank _ Hxs).
    + cbn [glue stripped_lines]. now rewrite (strip_space_l _ _ Hxs).
  - change (glue (x :: x2 :: xs) ys) with (x :: glue (x2 :: xs) ys).
    change (forallb blank (x :: x2 :: xs))
      with (blank x && forallb blank (x2 :: xs)) in Hxs.
    apply andb_true_iff in Hxs as [Hx Hrest].
    cbn [stripped_lines]. rewrite (strip_blank _ Hx). now apply IH.
Qed.

(** Trimming the whole reply first changes nothing: the translations are
    the trimmed non-blank lines of the reply. *)
Lemma parse_reply_lines text :
  parse_reply text = stripped_lines (split newline text).
Proof.
  unfold parse_reply, strip.
  destruct (lstrip_decompose text) as (sp1 & Hsp1 & Heq1).
  destruct (rstrip_decompose (lstrip text)) as (sp2 & Hsp2 & Heq2).
  rewrite Heq1 at 2. rewrite Heq2 at 2.
  rewrite !split_app.
  rewrite stripped_glue_blank_l by now apply split_blank.
  now rewrite stripped_glue_blank_r by now apply split_blank.
Qed.

Lemma parse_reply_join lines :
  forallb one_line lines = true ->
  parse_reply (join [newline] lines) = stripped_lines lines.
Proof.
  intros H. rewrite parse_reply_lines. destruct lines as [| l lines].
  - reflexivity.
  - now rewrite split_join.
Qed.

(** *** The backfill loop *)

Lemma skipn_nth_error {A} (l : list A) n x :
  nth_error l n = Some x -> skipn n l = x :: skipn (S n) l.
Proof.
  revert l. induction n as [| n IH]; intros [| a l]; simpl; try discriminate.
  - now intros [= ->].
  - apply IH.
Qed.

Lemma in_skipn {A} (x : A) n l : In x (skipn n l) -> In x l.
Proof.
  intros H. rewrite <- (firstn_skipn n l). apply in_or_app. now right.
Qed.

(** With the rounds [align] allows, the loop ends with its condition false
    and has appended the originals from where the translations stop. *)
Lemma backfill_closed texts_list : forall rounds translations,
  rounds = List.length texts_list - List.length translations ->
  backfill rounds translations texts_list
  = translations ++ skipn (List.length translations) texts_list.
Proof.
  induction rounds as [| rounds IH]; intros translations Hr; simpl.
  - rewrite skipn_all2 by lia. now rewrite app_nil_r.
  - assert (Hlt : List.length translations < List.length texts_list) by lia.
    apply Nat.ltb_lt in Hlt as Hb. rewrite Hb.
    destruct (nth_error texts_list (List.length translations)) as [x |] eqn:Hx.
    + rewrite IH by (rewrite length_app; simpl; lia).
      rewrite length_app. simpl. rewrite Nat.add_1_r.
      rewrite (skipn_nth_error _ _ Hx). now rewrite <- app_assoc.
    + apply nth_error_None in Hx. lia.
Qed.

Lemma align_closed text texts_list :
  align text texts_list
  = parse_reply text ++ skipn (List.length (parse_reply text)) texts_list.
Proof.
  unfold align.
  destruct (List.length (parse_reply text) =? List.length texts_list) eqn:E; simpl.
  - apply Nat.eqb_eq in E. rewrite skipn_all2 by lia. now rewrite app_nil_r.
  - now apply backfill_closed.
Qed.

Lemma align_length text texts_list :
  List.length (align text texts_list)
  = Nat.max (List.length (parse_reply text)) (List.length texts_list).
Proof. rewrite align_closed, length_app, length_skipn. lia. Qed.

(** A reply with no more lines than texts: the result has one entry per
    text, the reply's lines first and the originals at the missing
    indices. *)
Lemma align_short text texts_list :
  List.length (parse_reply text) <= List.length texts_list ->
  List.length (align text texts_list) = List.length texts_list
  /\ forall i, List.length (parse_reply text) <= i ->
               nth_error (align text texts_list) i = nth_error texts_list i.
Proof.
  intros Hle. split; [rewrite align_length; lia |].
  intros i Hi. rewrite align_closed, nth_error_app2 by exact Hi.
  rewrite nth_error_skipn. f_equal. lia.
Qed.

End ReplyLines.

Section Gateway.

Variable CLAUDE_API_KEY : option str.
Variable post : api_request -> api_reply.

Local Abbreviation translate_texts := (Translator.translate_texts CLAUDE_API_KEY post).

(** A successful call returned the aligned lines of a 200 reply, after one
    request. *)
Lemma translate_texts_ok nodes translations log :
  translate_texts nodes = (inr translations, log) ->
  exists key text,
    CLAUDE_API_KEY = Some key /\ key <> []
    /\ log = [make_request key (map original_text nodes)]
    /\ post (make_request key (map original_text nodes)) = Reply 200 (Some text)
    /\ translations = align text (map original_text nodes).
Proof.
  unfold Translator.translate_texts.
  destruct CLAUDE_API_KEY as [[| c key] |]; try discriminate.
  destruct (post _) as [| status payload] eqn:Hpost; [discriminate |].
  destruct (status =? 200) eqn:Hs; simpl; [| discriminate].
  destruct payload as [text |]; [| discriminate].
  intros [= <- <-]. apply Nat.eqb_eq in Hs. subst status.
  exists (c :: key), text. repeat split; auto. discriminate.
Qed.

(** Without a key nothing is posted. *)
Lemma translate_texts_unconfigured nodes :
  CLAUDE_API_KEY = None \/ CLAUDE_API_KEY = Some [] ->
  translate_texts nodes = (inl MissingApiKey, []).
Proof.
  unfold Translator.translate_texts. now intros [-> | ->].
Qed.

(** The result is never shorter than the node list, and as long when the
    reply has no more lines than there are nodes; the entries the reply
    lacks are the nodes' original texts. *)
Lemma translate_texts_backfilled nodes translations log :
  translate_texts nodes = (inr translations, log) ->
  List.length nodes <= List.length translations
  /\ forall text,
       (exists key, post (make_request key (map original_text nodes))
                    = Reply 200 (Some text) /\ CLAUDE_API_KEY = Some key) ->
       List.length (parse_reply text) <= List.length nodes ->
       List.length translations = List.length nodes
       /\ forall i, List.length (parse_reply text) <= i ->
                    nth_error translations i
                    = option_map original_text (nth_error nodes i).
Proof.
  intros H. apply translate_texts_ok in H
    as (key & text & Hkey & _ & _ & Hpost & ->).
  split.
  - rewrite align_length, length_map. lia.
  - intros text' (key' & Hpost' & Hkey') Hle.
    rewrite Hkey in Hkey'. injection Hkey' as <-.
    rewrite Hpost in Hpost'. injection Hpost' as <-.
    rewrite <- (length_map original_text) in Hle.
    destruct (align_short _ _ Hle) as [Hlen Hnth].
    rewrite length_map in Hlen. split; [exact Hlen |].
    intros i Hi. rewrite Hnth by exact Hi. apply nth_error_map.
Qed.

End Gateway.

(** C1. The claim asks for as many translations as nodes whatever the
    service replies. For the single node "Pierce Method" and a reply of two
    lines, [translate_texts] returns both lines: two translations for one
    node. *)
Theorem translate_texts_surplus_lines :
  exists request,
    Translator.translate_texts
      (Some (lit "key"))
      (fun _ => Reply 200 (Some (lit "Metoda przebicia
Typ lasera")))
      [Samples.node_a]
    = (inr [lit "Metoda przebicia"; lit "Typ lasera"], [request])
    /\ List.length [Samples.node_a] = 1.
Proof. eexists. split; vm_compute; reflexivity. Qed.

(** C10. The translations taken from a reply are the trimmed lines of the
    reply that are not blank: no entry is empty, also after the backfill
    when no original text is empty, and a blank line between other lines
    takes no index, so the lines after it move one index down. *)
Theorem blank_reply_lines_dropped text :
  parse_reply text
  = map strip (filter (fun l => negb (blank l)) (split newline text))
  /\ ~ In [] (parse_reply text)
  /\ (forall texts_list, ~ In [] texts_list -> ~ In [] (align text texts_list))
  /\ (forall before line after,
        forallb one_line (before ++ line :: after) = true ->
        blank line = true ->
        text = join [newline] (before ++ line :: after) ->
        parse_reply text = stripped_lines before ++ stripped_lines after
        /\ parse_reply text = parse_reply (join [newline] (before ++ after))
        /\ forall j, nth_error (parse_reply text)
                               (List.length (stripped_lines before) + j)
                     = nth_error (stripped_lines after) j).
Proof.
  split; [| split; [| split]].
  - rewrite parse_reply_lines. apply stripped_lines_filter.
  - rewrite parse_reply_lines. apply stripped_lines_nonempty.
  - intros texts_list Hne Hin. rewrite align_closed in Hin.
    apply in_app_or in Hin as [Hin | Hin].
    + rewrite parse_reply_lines in Hin. now apply stripped_lines_nonempty in Hin.
    + apply Hne. eapply in_skipn. exact Hin.
  - intros before line after Hlines Hblank ->.
    assert (Heq : parse_reply (join [newline] (before ++ line :: after))
                  = stripped_lines before ++ stripped_lines after).
    { rewrite parse_reply_join by exact Hlines.
      rewrite stripped_lines_app. cbn [stripped_lines].
      now rewrite (PyStrFacts.strip_blank _ Hblank). }
    split; [exact Heq | split].
    + rewrite Heq, parse_reply_join, stripped_lines_app; [reflexivity |].
      rewrite forallb_app in *. cbn [forallb] in Hlines.
      apply andb_true_iff in Hlines as [Hb Ha].
      apply andb_true_iff in Ha as [_ Ha]. now rewrite Hb, Ha.
    + intros j. rewrite Heq, nth_error_app2 by lia. f_equal. lia.
Qed.

(* ================================================================= *)
(** ** Reconstruction *)

Section Reconstruction.

Import PyStrFacts.

Variable fromstring : str -> option element.
Variable nd_table : char -> bool.

Local Abbreviation reconstruct_mui_file := (Translator.reconstruct_mui_file fromstring).
Local Abbreviation parse_mui_file := (Translator.parse_mui_file fromstring nd_table).
Local Abbreviation extracted := (Translator.extracted nd_table).

(** One round of the loop. At the turn of a node that has a translation,
    the leftmost occurrence of its snippet in the whole working text is
    replaced by the tag around the translation; the text before and after
    that occurrence is kept, so no other occurrence is touched. The next
    node with the same snippet is substituted at the following occurrence
    when the leftmost occurrence then starts after the first replacement. *)
Theorem substitute_leftmost_occurrence translations i item translation w k :
  nth_error translations i = Some translation ->
  find w (element_full_match item) = Some k ->
  let snippet := element_full_match item in
  let pre := firstn k w in
  let post := skipn (k + List.length snippet) w in
  let settled := pre ++ translated_match item translation in
  w = pre ++ snippet ++ post
  /\ (forall j, j < k -> startswith (skipn j w) snippet = false)
  /\ substitute translations i item w = settled ++ post
  /\ forall item' translation' j,
       element_full_match item' = snippet ->
       nth_error translations (S i) = Some translation' ->
       find (settled ++ post) snippet = Some (List.length settled + j) ->
       substitute translations (S i) item' (settled ++ post)
       = settled ++ firstn j post ++ translated_match item' translation'
                 ++ skipn (j + List.length snippet) post.
Proof.
  intros Ht Hfind snippet pre post settled.
  destruct (find_Some _ _ Hfind) as [Hsplit Hleft].
  split; [exact Hsplit | split; [exact Hleft | split]].
  - unfold substitute. rewrite Ht.
    rewrite (replace_first_found _ _ _ Hfind).
    subst settled pre post snippet. now rewrite <- app_assoc.
  - intros item' translation' j Hsame Ht' Hfind'.
    unfold substitute. rewrite Ht', Hsame.
    rewrite (replace_first_found _ _ _ Hfind').
    rewrite firstn_app_2, skipn_app.
    rewrite skipn_all2 by lia.
    replace (List.length settled + j + List.length snippet - List.length settled)
      with (j + List.length snippet) by lia.
    simpl. now rewrite <- app_assoc.
Qed.

(** A node whose snippet occurs nowhere in the working text at its turn
    leaves the text as it is, and the loop goes on with the next node; the
    step has no failing outcome. *)
Theorem missing_snippet_skipped translations i item rest w :
  find w (element_full_match item) = None ->
  (forall pre post, w <> pre ++ element_full_match item ++ post)
  /\ substitute translations i item w = w
  /\ substitute_from translations i (item :: rest) w
     = substitute_from translations (S i) rest w.
Proof.
  intros Hfind. split; [now apply find_None |].
  assert (Hsame : substitute translations i item w = w).
  { unfold substitute. destruct (nth_error translations i); [| reflexivity].
    now apply replace_first_absent. }
  split; [exact Hsame |]. simpl. now rewrite Hsame.
Qed.

(** A snippet that occurs nowhere is one [find] does not find. *)
Lemma absent_snippet_not_found w snippet :
  (forall pre post, w <> pre ++ snippet ++ post) -> find w snippet = None.
Proof. apply find_None. Qed.

(** C3. [reconstruct_mui_file] returns the text after all substitutions,
    and only when the parser accepts that text; in every other case it
    fails with the reconstruction error and returns no text. *)
Theorem reconstruct_validated self translations :
  match reconstruct_mui_file self translations with
  | inr text =>
      (exists root, fromstring text = Some root)
      /\ exists original,
           original_structure self = Some original
           /\ text = substitute_from translations 0 (translatable_texts self) original
  | inl e => e = ReconstructionFailed
  end.
Proof.
  unfold Translator.reconstruct_mui_file.
  destruct (original_structure self) as [original |]; [| reflexivity].
  destruct (fromstring _) as [root |] eqn:Hparse; [| reflexivity].
  split; [now exists root | now exists original].
Qed.

(** With every translation equal to the original text the loop changes
    nothing. *)
Lemma substitute_from_originals items before w :
  Forall extracted items ->
  substitute_from (map original_text (before ++ items)) (List.length before) items w = w.
Proof.
  revert before w.
  induction items as [| item items IH]; intros before w Hall; [reflexivity |].
  inversion Hall as [| ? ? Hitem Hrest]; subst. simpl.
  unfold substitute. rewrite nth_error_map, nth_error_app2 by lia.
  rewrite Nat.sub_diag. simpl.
  destruct Hitem as [Hmatch _]. rewrite <- Hmatch, replace_first_same.
  specialize (IH (before ++ [item]) w Hrest).
  rewrite <- app_assoc, length_app in IH. simpl in IH.
  now rewrite Nat.add_1_r in IH.
Qed.

(** A document without byte-order mark is parsed as it is. *)
Lemma strip_bom_without_bom file_content :
  existsb (char_eqb BOM) file_content = false -> strip_bom file_content = file_content.
Proof.
  intros H. unfold strip_bom.
  assert (Hstart : startswith file_content [BOM] = false).
  { destruct file_content as [| c s]; [reflexivity |]. simpl in *.
    apply orb_false_iff in H as [Hc _]. now rewrite Hc. }
  rewrite Hstart. clear Hstart. unfold remove_char.
  induction file_content as [| c s IH]; [reflexivity |]. simpl in *.
  apply orb_false_iff in H as [Hc Hs].
  assert (Hc' : char_eqb c BOM = false)
    by (unfold char_eqb in *; now rewrite N.eqb_sym).
  rewrite Hc'. simpl. f_equal. now apply IH.
Qed.

(** C4. For a document the parser accepts, reconstructing with the
    extracted nodes' original texts as translations succeeds, and the
    result parses to the tree the nodes were extracted from: it is the
    document itself, byte-order marks removed. *)
Theorem roundtrip_with_original_texts self file_content root :
  fromstring (strip_bom file_content) = Some root ->
  exists self' nodes text,
    parse_mui_file self file_content = inr (self', nodes)
    /\ nodes = Translator.extract_texts nd_table root []
    /\ reconstruct_mui_file self' (map original_text nodes) = inr text
    /\ fromstring text = Some root
    /\ text = strip_bom file_content
    /\ (existsb (char_eqb BOM) file_content = false -> text = file_content).
Proof.
  intros Hparse. unfold Translator.parse_mui_file. rewrite Hparse.
  eexists. eexists. exists (strip_bom file_content).
  split; [reflexivity |]. split; [reflexivity |].
  unfold Translator.reconstruct_mui_file. simpl.
  pose proof (substitute_from_originals [] (strip_bom file_content)
                (extract_texts_extracted nd_table root [])) as Hid.
  simpl in Hid. rewrite Hid, Hparse.
  repeat split. now apply strip_bom_without_bom.
Qed.

End Reconstruction.

(** The label text "OK" is an upper-case identifier: a label with this
    text is never extracted. *)
Example label_OK_is_code_like nd_table :
  Translator.is_code_like nd_table (lit "OK") = true
  /\ Translator.is_code_like nd_table (lit "Ok") = false.
Proof. split; vm_compute; reflexivity. Qed.

(** C2. Two sibling labels share the snippet "<label>Ok</label>"; the
    first keeps its text, the second is translated to "Tak". Substituting
    each node at its own occurrence, an occurrence once used not being
    matched again, changes the second label. The program searches from the
    start of the text again at the second node's turn: it rewrites the first
    label a second time and leaves the second label untranslated, while the
    report pairs the second label with "Tak". *)
Theorem second_duplicate_rematches_first :
  let doc := lit "<r><label>Ok</label><label>Ok</label></r>" in
  let translations := [lit "Ok"; lit "Tak"] in
  exists self nodes,
    Translator.parse_mui_file Lite.fromstring Lite.no_digits init doc
    = inr (self, nodes)
    /\ map element_full_match nodes
       = [lit "<label>Ok</label>"; lit "<label>Ok</label>"]
    /\ Translator.reconstruct_mui_file Lite.fromstring self translations
       = inr (lit "<r><label>Tak</label><label>Ok</label></r>")
    /\ Spec.substitute_remaining translations 0 nodes [] doc
       = lit "<r><label>Ok</label><label>Tak</label></r>"
    /\ lit "<r><label>Tak</label><label>Ok</label></r>"
       <> lit "<r><label>Ok</label><label>Tak</label></r>"
    /\ exists first second,
         nodes = [first; second]
         /\ report_records translations 0 nodes
            = report_record first (lit "Ok") ++ report_record second (lit "Tak").
Proof.
  eexists. eexists. split; [vm_compute; reflexivity |].
  split; [vm_compute; reflexivity |].
  split; [vm_compute; reflexivity |].
  split; [vm_compute; reflexivity |].
  split; [vm_compute; discriminate |].
  eexists. eexists. split; vm_compute; reflexivity.
Qed.

(** C8. In <r><label>Ok</label><label> Ok </label></r> both labels are
    extracted with the snippet "<label>Ok</label>", which occurs once. After
    the first node's turn the snippet does not occur in the text that
    remains behind its occurrence, so the second node is one to skip, the
    text staying as it is. The program does not skip it: it finds the
    occurrence the first node used and rewrites the first label to "Tak". *)
Theorem snippet_absent_from_remaining_not_skipped :
  let doc := lit "<r><label>Ok</label><label> Ok </label></r>" in
  let translations := [lit "Ok"; lit "Tak"] in
  let snippet := lit "<label>Ok</label>" in
  exists self first second,
    Translator.parse_mui_file Lite.fromstring Lite.no_digits init doc
    = inr (self, [first; second])
    /\ element_full_match first = snippet
    /\ element_full_match second = snippet
    /\ find doc snippet = Some 3
    /\ substitute translations 0 first doc = doc
    /\ find (skipn (3 + List.length snippet) doc) snippet = None
    /\ substitute translations 1 second doc
       = lit "<r><label>Tak</label><label> Ok </label></r>"
    /\ Translator.reconstruct_mui_file Lite.fromstring self translations
       = inr (lit "<r><label>Tak</label><label> Ok </label></r>")
    /\ Spec.substitute_remaining translations 0 [first; second] [] doc = doc
    /\ lit "<r><label>Tak</label><label> Ok </label></r>" <> doc.
Proof.
  eexists. eexists. eexists. split; [vm_compute; reflexivity |].
  repeat (split; [vm_compute; reflexivity |]).
  vm_compute. discriminate.
Qed.

(* ================================================================= *)
(** ** The report *)

Section Report.

Variable now : str.

Local Abbreviation generate_translation_report :=
  (Translator.generate_translation_report now).

Lemma combine_nil_r {A B} (l : list A) : combine l (@nil B) = [].
Proof. now destruct l. Qed.

Lemma report_records_combine translations items : forall i,
  report_records translations i items
  = flat_map (fun p => report_record (fst p) (snd p))
             (combine items (skipn i translations)).
Proof.
  induction items as [| item items IH]; intros i; [reflexivity |].
  cbn [report_records]. rewrite IH.
  destruct (nth_error translations i) as [t |] eqn:Ht.
  - rewrite (skipn_nth_error _ _ Ht). reflexivity.
  - apply nth_error_None in Ht.
    rewrite !skipn_all2 by lia. now rewrite combine_nil_r.
Qed.


End Report.


(* ================================================================= *)
(** ** The endpoint *)

Section Endpoint.

Variable fromstring : str -> option element.
Variable nd_table : char -> bool.
Variable CLAUDE_API_KEY : option str.
Variable post : api_request -> api_reply.
Variable now : str.
Variable lower : str -> str.

Local Abbreviation process :=
  (Translator.process fromstring nd_table CLAUDE_API_KEY post now).
Local Abbreviation translate_mui_file :=
  (Translator.translate_mui_file fromstring nd_table CLAUDE_API_KEY post now lower).
Local Abbreviation extract_texts := (Translator.extract_texts nd_table).
Local Abbreviation unconfigured := (Translator.unconfigured CLAUDE_API_KEY).

(** What the four steps return and post, by the stage they reach. *)
Lemma process_stages file_content r log :
  process file_content = (r, log) ->
  match fromstring (strip_bom file_content) with
  | None => r = inl InvalidMuiFile /\ log = []
  | Some root =>
      match extract_texts root [] with
      | [] => r = inr (BadRequest NoTranslatableTexts) /\ log = []
      | (_ :: _) as nodes =>
          match CLAUDE_API_KEY with
          | None | Some [] => r = inl MissingApiKey /\ log = []
          | Some key => log = [make_request key (map original_text nodes)]
          end
      end
  end.
Proof.
  unfold Translator.process, Translator.parse_mui_file, lift, bind.
  destruct (fromstring (strip_bom file_content)) as [root |].
  2: now intros [= <- <-].
  destruct (Translator.extract_texts nd_table root []) as [| n nodes].
  1: now intros [= <- <-].
  unfold Translator.translate_texts, raise.
  destruct CLAUDE_API_KEY as [[| c key] |].
  1, 3: now intros [= <- <-].
  destruct (post _) as [| status payload]; [now intros [= <- <-] |].
  destruct (negb (status =? 200)); [now intros [= <- <-] |].
  destruct payload as [text |]; [| now intros [= <- <-]].
  destruct (Translator.reconstruct_mui_file _ _ _); simpl; now intros [= <- <-].
Qed.

Ltac early :=
  repeat split; intros; subst;
  repeat match goal with
         | H : Some _ = Some _ |- _ => injection H as H; subst
         | H : Translator.unconfigured _ |- _ => destruct H
         | H1 : ?f ?x = _, H2 : ?f ?x = _ |- _ => rewrite H1 in H2
         end;
  try congruence.

(** C7. The request posts to the translation service only after the upload
    parsed, at least one node was extracted and a key was found. When
    parsing fails, when no node is extracted, or when the key is missing,
    the request ends with the error of that stage and nothing is posted. *)
Theorem gateway_posted_only_after_checks file resp log :
  translate_mui_file file = (resp, log) ->
  (log <> [] ->
   exists up file_content root key,
     file = Some up /\ decoded up = Some file_content
     /\ fromstring (strip_bom file_content) = Some root
     /\ extract_texts root [] <> []
     /\ CLAUDE_API_KEY = Some key /\ key <> []
     /\ log = [make_request key (map original_text (extract_texts root []))])
  /\ (forall up file_content,
        file = Some up -> filename up <> [] ->
        endswith (lower (filename up)) (lit ".mui") = true ->
        decoded up = Some file_content ->
        (fromstring (strip_bom file_content) = None ->
         resp = ServerError InvalidMuiFile /\ log = [])
        /\ (forall root,
              fromstring (strip_bom file_content) = Some root ->
              (extract_texts root [] = [] ->
               resp = BadRequest NoTranslatableTexts /\ log = [])
              /\ (extract_texts root [] <> [] -> unconfigured ->
                  resp = ServerError MissingApiKey /\ log = [])))
  /\ (unconfigured -> log = [] /\ forall t r, resp <> Archive t r).
Proof.
  unfold Translator.translate_mui_file. intros Hrun.
  destruct file as [up |]; [| injection Hrun as <- <-; early].
  destruct (filename up) as [| c name] eqn:Hname;
    [injection Hrun as <- <-; early |].
  destruct (endswith _ _) eqn:Hext; simpl in Hrun;
    [| injection Hrun as <- <-; early].
  destruct (decoded up) as [file_content |] eqn:Hdec;
    [| injection Hrun as <- <-; early].
  destruct (process file_content) as [r plog] eqn:Hproc.
  assert (Hlog : plog = log) by (destruct r; now injection Hrun).
  subst plog. apply process_stages in Hproc.
  destruct (fromstring (strip_bom file_content)) as [root |] eqn:Hparse.
  2: { destruct Hproc as [-> ->]. injection Hrun as <-. early. }
  destruct (Translator.extract_texts nd_table root []) as [| n nodes] eqn:Hnodes.
  { destruct Hproc as [-> ->]. injection Hrun as <-. early. }
  destruct CLAUDE_API_KEY as [[| k key] |] eqn:Hkey.
  - destruct Hproc as [-> ->]. injection Hrun as <-. early.
  - subst log. split; [| split].
    + intros _. exists up, file_content, root, (k :: key).
      rewrite Hnodes. repeat split; congruence.
    + early.
    + early.
  - destruct Hproc as [-> ->]. injection Hrun as <-. early.
Qed.

End Endpoint.

(* ================================================================= *)
(** ** The theorems at concrete inputs *)

Lemma substitute_leftmost_occurrence_run :
  let translations := [lit "Tak"; lit "Nie"] in
  nth_error translations 0 = Some (lit "Tak")
  /\ find Runs.two_labels (element_full_match Runs.label_ok) = Some 3
  /\ substitute translations 0 Runs.label_ok Runs.two_labels
     = lit "<r><label>Tak</label><label>Ok</label></r>"
  /\ substitute translations 1 Runs.label_ok
       (lit "<r><label>Tak</label><label>Ok</label></r>")
     = lit "<r><label>Tak</label><label>Nie</label></r>".
Proof.
  intros translations.
  assert (Ht : nth_error translations 0 = Some (lit "Tak")) by reflexivity.
  assert (Hf : find Runs.two_labels (element_full_match Runs.label_ok) = Some 3)
    by (vm_compute; reflexivity).
  destruct (substitute_leftmost_occurrence translations 0 Runs.label_ok
              Runs.two_labels Ht Hf) as (_ & _ & Hfirst & Hnext).
  split; [exact Ht | split; [exact Hf | split]].
  - rewrite Hfirst. vm_compute. reflexivity.
  - specialize (Hnext Runs.label_ok (lit "Nie") 0 eq_refl eq_refl).
    etransitivity; [| etransitivity; [apply Hnext |]];
      vm_compute; reflexivity.
Defined.

Lemma missing_snippet_skipped_run :
  let w := lit "<root><a>Pierce Method</a></root>" in
  find w (element_full_match Samples.node_d) = None
  /\ substitute_from [lit "Typ lasera"; lit "Metoda przebicia"] 0
       [Samples.node_d; Samples.node_a] w
     = substitute_from [lit "Typ lasera"; lit "Metoda przebicia"] 1
         [Samples.node_a] w.
Proof.
  intros w.
  assert (Hf : find w (element_full_match Samples.node_d) = None)
    by (vm_compute; reflexivity).
  split; [exact Hf |].
  apply (missing_snippet_skipped [lit "Typ lasera"; lit "Metoda przebicia"] 0
           Samples.node_d [Samples.node_a] w Hf).
Defined.

Lemma roundtrip_with_original_texts_run :
  Lite.fromstring (strip_bom Samples.doc_abcd) = Some Samples.tree_abcd
  /\ exists self' nodes text,
       Translator.parse_mui_file Lite.fromstring Lite.no_digits init Samples.doc_abcd
       = inr (self', nodes)
       /\ Translator.reconstruct_mui_file Lite.fromstring self'
            (map original_text nodes) = inr text
       /\ Lite.fromstring text = Some Samples.tree_abcd
       /\ text = Samples.doc_abcd.
Proof.
  assert (Hp : Lite.fromstring (strip_bom Samples.doc_abcd) = Some Samples.tree_abcd)
    by (vm_compute; reflexivity).
  split; [exact Hp |].
  destruct (roundtrip_with_original_texts Lite.fromstring Lite.no_digits init
              Samples.doc_abcd Hp)
    as (self' & nodes & text & Hrun & _ & Hrec & Hparse & Htext & _).
  exists self', nodes, text. repeat split; auto.
Defined.

Lemma extraction_of_sample_run :
  Lite.fromstring Samples.doc_abcd = Some Samples.tree_abcd
  /\ exists self',
       Translator.parse_mui_file Lite.fromstring Lite.no_digits init Samples.doc_abcd
       = inr (self', [Samples.node_a; Samples.node_d]).
Proof.
  assert (Hp : Lite.fromstring Samples.doc_abcd = Some Samples.tree_abcd)
    by (vm_compute; reflexivity).
  split; [exact Hp |].
  destruct (extraction_of_sample Lite.fromstring Lite.no_digits init Hp)
    as (self' & Hrun & _).
  now exists self'.
Defined.

Lemma is_code_like_rules_run :
  Spec.upper_identifier (lit "LASER_TYPE") = true
  /\ Translator.is_code_like Lite.no_digits (lit "LASER_TYPE") = true
  /\ forallb (isdecimal Lite.no_digits) (lit "12345") = true
  /\ Translator.is_code_like Lite.no_digits (lit "12345") = true.
Proof.
  destruct (is_code_like_rules Lite.no_digits) as (Hupper & _ & Hdigits & _).
  assert (H1 : Spec.upper_identifier (lit "LASER_TYPE") = true) by reflexivity.
  assert (H2 : forallb (isdecimal Lite.no_digits) (lit "12345") = true)
    by reflexivity.
  split; [exact H1 | split; [exact (Hupper _ H1) | split]];
    [exact H2 | exact (Hdigits _ H2)].
Defined.

Lemma gateway_posted_only_after_checks_run :
  Runs.run_panel = (fst Runs.run_panel, snd Runs.run_panel)
  /\ snd Runs.run_panel <> []
  /\ exists up file_content root key,
       Some Runs.panel = Some up /\ decoded up = Some file_content
       /\ Lite.fromstring (strip_bom file_content) = Some root
       /\ Translator.extract_texts Lite.no_digits root [] <> []
       /\ Some (lit "sk-test") = Some key /\ key <> []
       /\ snd Runs.run_panel
          = [make_request key
               (map original_text (Translator.extract_texts Lite.no_digits root []))].
Proof.
  assert (Hrun : Runs.run_panel = (fst Runs.run_panel, snd Runs.run_panel))
    by (vm_compute; reflexivity).
  assert (Hlog : snd Runs.run_panel <> []) by (vm_compute; discriminate).
  split; [exact Hrun | split; [exact Hlog |]].
  exact (proj1 (gateway_posted_only_after_checks _ _ _ _ _ _ _ Hrun) Hlog).
Defined.


Lemma blank_reply_lines_dropped_run :
  let before := [lit "Metoda przebicia"] in
  let after := [lit "Typ lasera"] in
  let text := join [newline] (before ++ lit "  " :: after) in
  forallb one_line (before ++ lit "  " :: after) = true
  /\ blank (lit "  ") = true
  /\ parse_reply text = [lit "Metoda przebicia"; lit "Typ lasera"].
Proof.
  intros before after text.
  destruct (blank_reply_lines_dropped text) as (_ & _ & _ & Hshift).
  assert (H1 : forallb one_line (before ++ lit "  " :: after) = true)
    by reflexivity.
  assert (H2 : blank (lit "  ") = true) by reflexivity.
  split; [exact H1 | split; [exact H2 |]].
  destruct (Hshift before (lit "  ") after H1 H2 eq_refl) as (Heq & _).
  rewrite Heq. reflexivity.
Defined.

(* ================================================================= *)
(** ** The patterns, rule by rule *)

Section DirectClassifier.

Import PyStrFacts.

Variable nd_table : char -> bool.

Local Abbreviation is_code_like := (Translator.is_code_like nd_table).
Local Abbreviation re_match := (Re.re_match nd_table).
Local Abbreviation lang := (Re.lang nd_table).
Local Abbreviation atom_mem := (Re.atom_mem nd_table).

Lemma lang_atom_inv a u :
  lang (Atom a) u -> exists c, u = [c] /\ atom_mem a c = true.
Proof. inversion 1; subst. eauto. Qed.

Lemma lang_star_atoms_inv a u :
  lang (Star (Atom a)) u -> forallb (atom_mem a) u = true.
Proof.
  intros H. remember (Star (Atom a)) as r eqn:Er.
  induction H; try discriminate; [reflexivity |].
  injection Er as ->. apply lang_atom_inv in H as (c & -> & Hc).
  simpl. rewrite Hc. now apply IHlang2.
Qed.

Lemma forallb_Forall_true {A} (f : A -> bool) l :
  forallb f l = true -> Forall (fun x => f x = true) l.
Proof. intros H. apply Forall_forall. now apply forallb_forall. Qed.

Lemma lang_star_atoms_iff a u :
  lang (Star (Atom a)) u <-> forallb (atom_mem a) u = true.
Proof.
  split; [apply lang_star_atoms_inv |].
  intros H. now apply ReFacts.lang_star_atoms, forallb_Forall_true.
Qed.

Lemma lang_plus_atoms_iff a u :
  lang (Plus (Atom a)) u <-> u <> [] /\ forallb (atom_mem a) u = true.
Proof.
  split.
  - intros H. apply ReFacts.lang_seq_inv in H as (u1 & u2 & -> & H1 & H2).
    apply lang_atom_inv in H1 as (c & -> & Hc).
    apply lang_star_atoms_inv in H2. simpl. rewrite Hc, H2.
    split; [discriminate | reflexivity].
  - intros [Hne H]. destruct u as [| c u]; [congruence |]. simpl in H.
    apply andb_true_iff in H as [Hc Hu].
    apply ReFacts.lang_plus_atoms; [exact Hc | now apply forallb_Forall_true].
Qed.

(** *** The end of a pattern *)

Lemma at_dollar_iff v : at_dollar v = true <-> v = [] \/ v = [newline].
Proof.
  destruct v as [| c [| d v]]; simpl.
  - split; auto.
  - rewrite char_eqb_eq. split.
    + intros ->. now right.
    + intros [H | H]; [discriminate | now injection H].
  - split; [discriminate | intros [H | H]; discriminate].
Qed.

Lemma before_final_newline_iff s u :
  Direct.before_final_newline s = Some u <-> s = u ++ [newline].
Proof.
  unfold Direct.before_final_newline. split.
  - destruct (rev s) as [| c r] eqn:Hr; [discriminate |].
    destruct (char_eqb c newline) eqn:Hc; [| discriminate].
    intros [= <-]. apply char_eqb_eq in Hc. subst c.
    rewrite <- (rev_involutive s), Hr. reflexivity.
  - intros ->. rewrite rev_app_distr. simpl.
    now rewrite rev_involutive.
Qed.

Lemma to_end_iff rule s :
  Direct.to_end rule s = true <->
  exists u v, s = u ++ v /\ rule u = true /\ at_dollar v = true.
Proof.
  unfold Direct.to_end. rewrite orb_true_iff. split.
  - intros [H | H].
    + exists s, []. now rewrite app_nil_r.
    + destruct (Direct.before_final_newline s) as [u |] eqn:Hu; [| discriminate].
      apply before_final_newline_iff in Hu. exists u, [newline].
      repeat split; auto.
  - intros (u & v & -> & Hrule & Hv). apply at_dollar_iff in Hv as [-> | ->].
    + left. now rewrite app_nil_r.
    + right. assert (Hu : Direct.before_final_newline (u ++ [newline]) = Some u)
        by now apply before_final_newline_iff.
      now rewrite Hu.
Qed.

(** A pattern that ends in [$] is its rule applied up to the end. *)
Lemma re_match_to_end p rule s :
  dollar p = true ->
  (forall u, lang (body p) u <-> rule u = true) ->
  re_match p s = Direct.to_end rule s.
Proof.
  intros Hd Hrule. apply Bool.eq_iff_eq_true.
  unfold Re.re_match. rewrite ReFacts.match_from_spec, to_end_iff, Hd.
  split; intros (u & v & Heq & Hu & Hv); exists u, v;
    repeat split; auto; now apply Hrule.
Qed.

(** *** The character classes *)

Lemma id_char_mem c : atom_mem id_char c = Direct.id_class c.
Proof.
  unfold Direct.id_class. cbn. unfold char_eqb. btauto.
Qed.

Lemma hex_class_mem c :
  atom_mem (Class [digit09; Range (ch "A") (ch "F"); Range (ch "a") (ch "f")]) c
  = Direct.hex_class c.
Proof. unfold Direct.hex_class. cbn. btauto. Qed.

Lemma letter_class_mem c :
  atom_mem (Class [lower_az; upper; underscore]) c = Direct.letter_or_underscore c.
Proof.
  unfold Direct.letter_or_underscore. cbn. unfold char_eqb. btauto.
Qed.

Lemma forallb_ext_eq {A} (f g : A -> bool) l :
  (forall x, f x = g x) -> forallb f l = forallb g l.
Proof.
  intros H. induction l as [| a l IH]; simpl; [reflexivity |].
  now rewrite H, IH.
Qed.

(** *** The five patterns *)

Lemma upper_case_constant_lang u :
  lang (body upper_case_constant) u <-> Spec.upper_identifier u = true.
Proof.
  simpl. split.
  - intros H. apply ReFacts.lang_seq_inv in H as (u1 & u2 & -> & H1 & H2).
    apply lang_atom_inv in H1 as (c & -> & Hc).
    apply lang_star_atoms_inv in H2. simpl.
    rewrite first_class_mem in Hc. rewrite Hc. simpl.
    rewrite <- H2. apply forallb_ext_eq. intros x. symmetry.
    apply rest_class_mem.
  - destruct u as [| c rest]; [discriminate |]. simpl. intros H.
    apply andb_true_iff in H as [Hc Hrest].
    apply (@L_seq nd_table _ _ [c] rest).
    + constructor. now rewrite first_class_mem.
    + apply lang_star_atoms_iff. rewrite <- Hrest.
      apply forallb_ext_eq. intros x. apply rest_class_mem.
Qed.

Lemma digits_only_lang u :
  lang (body digits_only) u <-> Direct.digits nd_table u = true.
Proof.
  simpl. rewrite lang_plus_atoms_iff. unfold Direct.digits.
  destruct u as [| c u]; simpl.
  - split; [intros [H _]; congruence | discriminate].
  - split; [now intros [_ H] | intros H; split; [discriminate | exact H]].
Qed.

Lemma inner_dot_split rest :
  existsb (fun c => char_eqb c 46%N) (removelast rest) = true ->
  exists x y, rest = x ++ 46%N :: y /\ y <> [].
Proof.
  induction rest as [| c [| d rest] IH]; try discriminate.
  change (removelast (c :: d :: rest)) with (c :: removelast (d :: rest)).
  cbn [existsb]. intros H. apply orb_true_iff in H as [H | H].
  - apply char_eqb_eq in H. subst c. exists [], (d :: rest).
    split; [reflexivity | discriminate].
  - destruct (IH H) as (x & y & Heq & Hy). exists (c :: x), y.
    split; [simpl; now rewrite Heq | exact Hy].
Qed.

Lemma inner_dot_joined x y :
  y <> [] ->
  existsb (fun c => char_eqb c 46%N) (removelast (x ++ 46%N :: y)) = true.
Proof.
  intros Hy. rewrite removelast_app by discriminate.
  rewrite existsb_app. apply orb_true_iff. right.
  destruct y as [| d y]; [congruence |].
  change (removelast (46%N :: d :: y)) with (46%N :: removelast (d :: y)).
  reflexivity.
Qed.

Lemma dotted_id_lang u :
  lang (body dotted_id) u <-> Direct.dotted u = true.
Proof.
  simpl. unfold Direct.dotted. split.
  - intros H. apply ReFacts.lang_seq_inv in H as (u1 & w & -> & H1 & H2).
    apply ReFacts.lang_seq_inv in H2 as (d & u2 & -> & Hd & H2).
    apply lang_atom_inv in Hd as (c & -> & Hc).
    apply char_eqb_eq in Hc. subst c.
    apply lang_plus_atoms_iff in H1 as [Hne1 H1].
    apply lang_plus_atoms_iff in H2 as [Hne2 H2].
    rewrite (forallb_ext_eq _ _ u1 id_char_mem) in H1.
    rewrite (forallb_ext_eq _ _ u2 id_char_mem) in H2.
    apply andb_true_iff. split.
    + rewrite !forallb_app, H1. simpl. now rewrite H2.
    + destruct u1 as [| a u1]; [congruence |].
      change ((a :: u1) ++ [ch "."] ++ u2) with (a :: (u1 ++ 46%N :: u2)).
      now apply inner_dot_joined.
  - intros H. apply andb_true_iff in H as [Hall Hdot].
    destruct u as [| a rest]; [discriminate |].
    apply inner_dot_split in Hdot as (x & y & -> & Hy).
    change (a :: x ++ 46%N :: y) with ((a :: x) ++ 46%N :: y) in Hall.
    rewrite forallb_app in Hall. apply andb_true_iff in Hall as [Hx Hrest].
    cbn [forallb] in Hrest. apply andb_true_iff in Hrest as [_ Hyall].
    change (a :: x ++ 46%N :: y) with ((a :: x) ++ ([46%N] ++ y)).
    constructor; [| constructor].
    + apply lang_plus_atoms_iff. split; [discriminate |].
      now rewrite (forallb_ext_eq _ _ _ id_char_mem).
    + constructor. apply char_eqb_refl.
    + apply lang_plus_atoms_iff. split; [exact Hy |].
      now rewrite (forallb_ext_eq _ _ _ id_char_mem).
Qed.

Lemma hex_color_lang u :
  lang (body hex_color) u <-> Direct.hex u = true.
Proof.
  simpl. split.
  - intros H. apply ReFacts.lang_seq_inv in H as (u1 & u2 & -> & H1 & H2).
    apply lang_atom_inv in H1 as (c & -> & Hc).
    apply lang_plus_atoms_iff in H2 as [Hne H2].
    rewrite (forallb_ext_eq _ _ _ hex_class_mem) in H2.
    destruct u2 as [| d u2]; [congruence |].
    simpl in Hc. unfold Direct.hex. simpl app.
    apply andb_true_iff. now split.
  - destruct u as [| c [| d h]]; try discriminate. unfold Direct.hex.
    intros H. apply andb_true_iff in H as [Hc Hh].
    apply (@L_seq nd_table _ _ [c] (d :: h)).
    + now constructor.
    + apply lang_plus_atoms_iff. split; [discriminate |].
      now rewrite (forallb_ext_eq _ _ _ hex_class_mem).
Qed.

Lemma dollar_variable_match s :
  re_match dollar_variable s = Direct.dollar_prefixed s.
Proof.
  apply Bool.eq_iff_eq_true. unfold Re.re_match.
  rewrite ReFacts.match_from_spec. simpl. split.
  - intros (u & v & -> & H & _).
    apply ReFacts.lang_seq_inv in H as (u1 & u2 & -> & H1 & H2).
    apply lang_atom_inv in H1 as (c & -> & Hc).
    apply lang_atom_inv in H2 as (d & -> & Hd).
    rewrite letter_class_mem in Hd. simpl in *.
    apply andb_true_iff. now split.
  - destruct s as [| c [| d rest]]; try discriminate.
    unfold Direct.dollar_prefixed. intros H.
    apply andb_true_iff in H as [Hc Hd].
    exists [c; d], rest. repeat split.
    apply (@L_seq nd_table _ _ [c] [d]); constructor.
    + exact Hc.
    + now rewrite letter_class_mem.
Qed.

(** The classifier is the six character tests. *)
Lemma classifier_direct s : is_code_like s = Direct.code_like nd_table s.
Proof.
  unfold Translator.is_code_like, code_patterns, Direct.code_like.
  cbn [existsb].
  rewrite (re_match_to_end upper_case_constant Spec.upper_identifier s eq_refl
             upper_case_constant_lang).
  rewrite (re_match_to_end digits_only (Direct.digits nd_table) s eq_refl
             digits_only_lang).
  rewrite (re_match_to_end dotted_id Direct.dotted s eq_refl dotted_id_lang).
  rewrite (re_match_to_end hex_color Direct.hex s eq_refl hex_color_lang).
  rewrite dollar_variable_match, orb_false_r.
  destruct (Direct.to_end Spec.upper_identifier s),
    (Direct.to_end (Direct.digits nd_table) s),
    (Direct.to_end Direct.dotted s), (Direct.to_end Direct.hex s),
    (Direct.dollar_prefixed s), (List.length s <? 2); reflexivity.
Qed.

End DirectClassifier.

(* ================================================================= *)
(** ** More on the classifier *)

Section ClassifierRules.

Import PyStrFacts.

Variable nd_table : char -> bool.

Local Abbreviation is_code_like := (Translator.is_code_like nd_table).
Local Abbreviation let_through := (Direct.let_through nd_table).

(** X1. [is_code_like] is true exactly for the texts that pass one of the
    six rules: up to its end or up to its final newline the text is an
    upper-case identifier, or decimal digits, or identifier characters with
    an inner dot, or a hash sign with hexadecimal digits; or the text
    starts with a dollar sign and a letter or underscore; or it is shorter
    than two characters. *)
Theorem is_code_like_exact s :
  is_code_like s = true <->
  (exists u, (s = u \/ s = u ++ [newline])
             /\ (Spec.upper_identifier u = true
                 \/ Direct.digits nd_table u = true
                 \/ Direct.dotted u = true
                 \/ Direct.hex u = true))
  \/ Direct.dollar_prefixed s = true
  \/ List.length s < 2.
Proof.
  rewrite classifier_direct. unfold Direct.code_like.
  rewrite !orb_true_iff, !to_end_iff, Nat.ltb_lt.
  assert (Hend : forall u v, at_dollar v = true ->
                             u ++ v = u \/ u ++ v = u ++ [newline]).
  { intros u v Hv. apply at_dollar_iff in Hv as [-> | ->];
      [left; apply app_nil_r | now right]. }
  split.
  - intros [[[[[H | H] | H] | H] | H] | H]; auto;
      destruct H as (u & v & -> & Hu & Hv); left; exists u; split; auto.
  - intros [(u & Hs & Hrule) | [H | H]]; auto.
    assert (Hv : exists v, s = u ++ v /\ at_dollar v = true).
    { destruct Hs as [-> | ->];
        [exists []; now rewrite app_nil_r | now exists [newline]]. }
    destruct Hv as (v & -> & Hv).
    destruct Hrule as [H | [H | [H | H]]].
    + left; left; left; left; left. now exists u, v.
    + left; left; left; left; right. now exists u, v.
    + left; left; left; right. now exists u, v.
    + left; left; right. now exists u, v.
Qed.

Lemma upper_identifier_chars u :
  Spec.upper_identifier u = true -> forallb let_through u = true.
Proof.
  destruct u as [| c rest]; [discriminate |]. simpl. intros H.
  apply andb_true_iff in H as [Hc Hrest]. apply andb_true_iff. split.
  - unfold Direct.let_through, Direct.id_class, Spec.upper_or_underscore in *.
    apply orb_true_iff in Hc as [Hc | Hc]; rewrite Hc;
      now rewrite ?orb_true_r.
  - rewrite forallb_forall in *. intros x Hx. specialize (Hrest x Hx).
    unfold Direct.let_through, Direct.id_class, Spec.upper_digit_underscore,
      Spec.upper_or_underscore in *.
    apply orb_true_iff in Hrest as [Hr | Hr];
      [apply orb_true_iff in Hr as [Hr | Hr] |]; rewrite Hr;
      now rewrite ?orb_true_r.
Qed.

Lemma digits_chars u :
  Direct.digits nd_table u = true -> forallb let_through u = true.
Proof.
  destruct u as [| c rest]; [discriminate |]. unfold Direct.digits.
  rewrite !forallb_forall. intros H x Hx. unfold Direct.let_through.
  now rewrite (H x Hx), orb_true_r.
Qed.

Lemma dotted_chars u :
  Direct.dotted u = true -> forallb let_through u = true.
Proof.
  unfold Direct.dotted. intros H. apply andb_true_iff in H as [H _].
  rewrite forallb_forall in *. intros x Hx. unfold Direct.let_through.
  now rewrite (H x Hx).
Qed.

Lemma hex_chars u :
  Direct.hex u = true -> forallb let_through u = true.
Proof.
  destruct u as [| c [| d h]]; try discriminate. unfold Direct.hex.
  intros H. apply andb_true_iff in H as [Hc Hh].
  change (forallb let_through (c :: d :: h))
    with (let_through c && forallb let_through (d :: h)).
  apply andb_true_iff. split.
  - unfold Direct.let_through, char_eqb in *. now rewrite Hc, orb_true_r.
  - rewrite forallb_forall in *. intros x Hx. specialize (Hh x Hx).
    unfold Direct.let_through, Direct.id_class, Direct.hex_class in *.
    destruct ((48 <=? x)%N && (x <=? 57)%N) eqn:E1;
      [now rewrite ?orb_true_r |].
    destruct ((65 <=? x)%N && (x <=? 70)%N) eqn:E2.
    + apply andb_true_iff in E2 as [Ha Hb].
      apply N.leb_le in Ha, Hb.
      assert (Hz : ((65 <=? x) && (x <=? 90))%N = true)
        by (apply andb_true_iff; split; apply N.leb_le; lia).
      rewrite Hz. now rewrite ?orb_true_r.
    + simpl in Hh. apply andb_true_iff in Hh as [Ha Hb].
      apply N.leb_le in Ha, Hb.
      assert (Hz : ((97 <=? x) && (x <=? 122))%N = true)
        by (apply andb_true_iff; split; apply N.leb_le; lia).
      now rewrite Hz.
Qed.

Lemma prose_char_stopped c :
  Direct.prose_char c = true -> let_through c = false /\ c <> newline.
Proof.
  unfold Direct.prose_char, Direct.let_through, isdecimal. intros H.
  apply andb_true_iff in H as [H Hnl]. apply andb_true_iff in H as [H Hhash].
  apply andb_true_iff in H as [Hascii Hid].
  apply negb_true_iff in Hid, Hhash, Hnl. rewrite Hascii, Hid, Hhash. split.
  - unfold Direct.id_class in Hid.
    destruct ((48 <=? c)%N && (c <=? 57)%N); [| reflexivity].
    now rewrite !orb_true_r in Hid.
  - intros ->. discriminate.
Qed.

Lemma to_end_stopped rule s c :
  (forall u, rule u = true -> forallb let_through u = true) ->
  Direct.prose_char c = true -> In c s ->
  Direct.to_end rule s = false.
Proof.
  intros Hrule Hc Hin. destruct (Direct.to_end rule s) eqn:E; [| reflexivity].
  apply to_end_iff in E as (u & v & -> & Hu & Hv).
  apply prose_char_stopped in Hc as [Hstop Hnl].
  apply Hrule in Hu. rewrite forallb_forall in Hu.
  apply in_app_or in Hin as [Hin | Hin].
  - rewrite (Hu c Hin) in Hstop. discriminate.
  - apply at_dollar_iff in Hv as [-> | ->]; [inversion Hin |].
    destruct Hin as [<- | []]. congruence.
Qed.

(** X2. A text of two or more characters that holds a space, or any other
    ASCII character that is not a letter, digit, dot, underscore, hyphen,
    hash sign or newline, is code-like only by the dollar rule: when it
    starts with a dollar sign and a letter or underscore. *)
Theorem prose_is_code_like_only_by_dollar s c :
  Direct.prose_char c = true -> In c s -> 2 <= List.length s ->
  is_code_like s = Direct.dollar_prefixed s.
Proof.
  intros Hc Hin Hlen. rewrite classifier_direct. unfold Direct.code_like.
  rewrite (@to_end_stopped _ s c upper_identifier_chars Hc Hin).
  rewrite (@to_end_stopped _ s c digits_chars Hc Hin).
  rewrite (@to_end_stopped _ s c dotted_chars Hc Hin).
  rewrite (@to_end_stopped _ s c hex_chars Hc Hin).
  assert (Hshort : (List.length s <? 2) = false) by (apply Nat.ltb_ge; lia).
  rewrite Hshort. simpl. apply orb_false_r.
Qed.

End ClassifierRules.

(* ================================================================= *)
(** ** More on extraction *)

Section ExtractionWalk.

Variable fromstring : str -> option element.
Variable nd_table : char -> bool.

Local Abbreviation is_code_like := (Translator.is_code_like nd_table).
Local Abbreviation extract_texts := (Translator.extract_texts nd_table).
Local Abbreviation own_nodes := (Translator.own_nodes nd_table).
Local Abbreviation parse_mui_file := (Translator.parse_mui_file fromstring nd_table).
Local Abbreviation extracted := (Translator.extracted nd_table).
Local Abbreviation contribution := (Walk.contribution nd_table).

Lemma descendants_children t x children p :
  Walk.descendants (Element t x children) p =
  flat_map (fun child =>
              (child_path p (Walk.tag_of child), child)
                :: Walk.descendants child (child_path p (Walk.tag_of child)))
           children.
Proof.
  simpl. induction children as [| [ct cx cc] children IH]; [reflexivity |].
  cbn [flat_map]. rewrite <- IH. reflexivity.
Qed.

Lemma extract_texts_walk e : forall p,
  extract_texts e p = flat_map contribution (Walk.descendants e p).
Proof.
  induction e as [t x children IH] using element_nested_ind. intros p.
  rewrite extract_texts_children, descendants_children.
  induction IH as [| [ct cx cc] children Hchild _ IHrest]; [reflexivity |].
  cbn [flat_map]. rewrite flat_map_app. cbn [flat_map Walk.tag_of].
  rewrite <- IHrest, <- Hchild. unfold Walk.contribution. simpl.
  now rewrite <- !app_assoc.
Qed.

(** X3. The extracted nodes are the contributions of the elements below
    the root, taken in document order with every parent before its
    children: each element with text that is not blank and not code-like
    gives one node, at any depth, whether or not its parent gave one; the
    root itself gives none. *)
Theorem extraction_is_preorder_walk root :
  extract_texts root []
  = flat_map (fun d => own_nodes (fst d) (Walk.tag_of (snd d)) (Walk.text_of (snd d)))
             (Walk.descendants root [])
  /\ forall n,
       In n (extract_texts root []) <->
       exists found_path child raw,
         In (found_path, child) (Walk.descendants root [])
         /\ Walk.text_of child = Some raw
         /\ strip raw <> []
         /\ is_code_like (strip raw) = false
         /\ n = make_node found_path (Walk.tag_of child) (strip raw).
Proof.
  split; [apply extract_texts_walk |].
  intros n. rewrite extract_texts_walk, in_flat_map. split.
  - intros ([fp child] & Hin & Hn). unfold Walk.contribution in Hn. simpl in Hn.
    destruct (Walk.text_of child) as [raw |] eqn:Hraw; simpl in Hn; [| tauto].
    destruct (strip raw) as [| c r] eqn:Hs; [inversion Hn |].
    destruct (is_code_like (c :: r)) eqn:Hc; simpl in Hn; [tauto |].
    destruct Hn as [<- | []]. exists fp, child, raw.
    rewrite Hs. repeat split; auto. discriminate.
  - intros (fp & child & raw & Hin & Hraw & Hne & Hc & ->).
    exists (fp, child). split; [exact Hin |].
    unfold Walk.contribution. simpl. rewrite Hraw. simpl.
    destruct (strip raw) as [| c r]; [congruence |].
    rewrite Hc. simpl. now left.
Qed.

Lemma not_code_like_long s : is_code_like s = false -> 2 <= List.length s.
Proof.
  unfold Translator.is_code_like.
  destruct (existsb _ _); [discriminate |].
  destruct (List.length s <? 2) eqn:E; [discriminate |].
  intros _. now apply Nat.ltb_ge in E.
Qed.

Lemma child_path_ends p t :
  child_path p t = t \/ exists above, child_path p t = above ++ lit "/" ++ t.
Proof.
  destruct p as [| c p]; [now left |]. right. now exists (c :: p).
Qed.

Lemma own_nodes_path p t x :
  Forall Walk.ends_with_tag (own_nodes (child_path p t) t x).
Proof.
  destruct x as [x |]; simpl; [| constructor].
  destruct (strip x) as [| c r]; [constructor |].
  destruct (is_code_like (c :: r)); simpl; constructor; [| constructor].
  unfold Walk.ends_with_tag. simpl. apply child_path_ends.
Qed.

Lemma extract_texts_paths e : forall p,
  Forall Walk.ends_with_tag (extract_texts e p).
Proof.
  induction e as [t x children IH] using element_nested_ind. intros p.
  rewrite extract_texts_children.
  induction IH as [| [ct cx cc] children Hchild _ IHrest]; [constructor |].
  cbn [flat_map]. rewrite !Forall_app. repeat split.
  - apply own_nodes_path.
  - apply Hchild.
  - exact IHrest.
Qed.

(** X4. Every node [parse_mui_file] returns has a snippet that is its tag
    around its text; the text is trimmed, at least two characters long and
    not code-like; the path ends with the tag. The nodes and the document
    without its byte-order marks are stored in the translator. *)
Theorem parsed_nodes_invariant self file_content self' nodes :
  parse_mui_file self file_content = inr (self', nodes) ->
  translatable_texts self' = nodes
  /\ original_structure self' = Some (strip_bom file_content)
  /\ Forall (fun n =>
               element_full_match n
               = lit "<" ++ tag n ++ lit ">" ++ original_text n
                 ++ lit "</" ++ tag n ++ lit ">"
               /\ strip (original_text n) = original_text n
               /\ 2 <= List.length (original_text n)
               /\ is_code_like (original_text n) = false
               /\ Walk.ends_with_tag n) nodes.
Proof.
  intros H. apply parse_mui_file_inv in H as (root & _ & -> & Hnodes & Horig).
  split; [exact Hnodes | split; [exact Horig |]].
  pose proof (extract_texts_extracted nd_table root []) as Hext.
  pose proof (extract_texts_paths root []) as Hpath.
  rewrite Forall_forall in *. intros n Hn.
  destruct (Hext n Hn) as (Hmatch & _ & Hstrip & Hcode).
  split; [exact Hmatch | split; [exact Hstrip | split; [| split]]].
  - now apply not_code_like_long.
  - exact Hcode.
  - now apply Hpath.
Qed.

(** *** Byte-order marks *)

Lemma strip_bom_filter s : strip_bom s = remove_char BOM s.
Proof.
  unfold strip_bom. destruct s as [| c s]; [reflexivity |].
  cbn [startswith]. rewrite andb_true_r.
  destruct (char_eqb BOM c) eqn:E; [| reflexivity].
  unfold char_eqb in E. apply N.eqb_eq in E. subst c. reflexivity.
Qed.

Lemma remove_char_app c a b :
  remove_char c (a ++ b) = remove_char c a ++ remove_char c b.
Proof. unfold remove_char. apply filter_app. Qed.

(** X5. [parse_mui_file] removes every byte-order mark, wherever it
    stands: the text it parses and stores holds none, and a document gives
    the same result with or without a mark added at any position. *)
Theorem byte_order_marks_ignored self :
  (forall s, strip_bom s = remove_char BOM s /\ ~ In BOM (strip_bom s))
  /\ (forall s, strip_bom (strip_bom s) = strip_bom s)
  /\ (forall a b,
        parse_mui_file self (a ++ BOM :: b) = parse_mui_file self (a ++ b)).
Proof.
  assert (Hno : forall s, ~ In BOM (remove_char BOM s)).
  { intros s Hin. unfold remove_char in Hin. apply filter_In in Hin as [_ H].
    now rewrite PyStrFacts.char_eqb_refl in H. }
  assert (Hsame : forall a b, strip_bom (a ++ BOM :: b) = strip_bom (a ++ b)).
  { intros a b. rewrite !strip_bom_filter, !remove_char_app.
    f_equal; unfold remove_char; simpl; reflexivity. }
  split; [| split].
  - intros s. rewrite strip_bom_filter. split; [reflexivity | apply Hno].
  - intros s. rewrite !strip_bom_filter. unfold remove_char.
    induction s as [| c s IH]; [reflexivity |]. simpl.
    destruct (negb (char_eqb c BOM)) eqn:E; simpl; [| exact IH].
    now rewrite E, IH.
  - intros a b. unfold Translator.parse_mui_file. now rewrite Hsame.
Qed.

End ExtractionWalk.

(* ================================================================= *)
(** ** More on the reply of the translation service *)

Section ReplyShape.

Import PyStrFacts.

Lemma in_lstrip c s : In c (lstrip s) -> In c s.
Proof.
  induction s as [| x s IH]; simpl; [tauto |].
  destruct (isspace x); [intros H; right; now apply IH | tauto].
Qed.

Lemma in_strip c s : In c (strip s) -> In c s.
Proof.
  unfold strip, rstrip. intros H. apply in_rev in H.
  apply in_lstrip in H. apply in_rev in H. now apply in_lstrip in H.
Qed.

Lemma one_line_strip l : one_line l = true -> one_line (strip l) = true.
Proof.
  unfold one_line. rewrite !negb_true_iff. intros H.
  destruct (existsb (char_eqb newline) (strip l)) eqn:E; [| reflexivity].
  apply existsb_exists in E as (x & Hin & Hx). apply in_strip in Hin.
  assert (Hl : existsb (char_eqb newline) l = true)
    by (apply existsb_exists; eauto).
  congruence.
Qed.

Lemma one_line_cons c p :
  char_eqb c newline = false -> one_line (c :: p) = one_line p.
Proof.
  intros H. unfold one_line. cbn [existsb].
  replace (char_eqb newline c) with (char_eqb c newline) by apply N.eqb_sym.
  now rewrite H.
Qed.

Lemma split_pieces_one_line s : forallb one_line (split newline s) = true.
Proof.
  induction s as [| c s IH]; [reflexivity |]. cbn [split].
  destruct (char_eqb c newline) eqn:Hc; [exact IH |].
  destruct (split newline s) as [| p ps]; cbn [forallb] in *.
  - now rewrite (@one_line_cons c [] Hc).
  - apply andb_true_iff in IH as [Hp Hps].
    now rewrite (@one_line_cons c p Hc), Hp, Hps.
Qed.

Lemma stripped_lines_one_line lines :
  forallb one_line lines = true -> forallb one_line (stripped_lines lines) = true.
Proof.
  induction lines as [| l lines IH]; [reflexivity |]. simpl.
  intros H. apply andb_true_iff in H as [Hl Hrest].
  destruct (strip l) as [| c r] eqn:Hs; [now apply IH |].
  simpl. rewrite IH by exact Hrest. rewrite andb_true_r.
  rewrite <- Hs. now apply one_line_strip.
Qed.

Lemma stripped_lines_trimmed lines :
  Forall Lines.clean (stripped_lines lines).
Proof.
  induction lines as [| l lines IH]; [constructor |]. simpl.
  destruct (strip l) as [| c r] eqn:Hs; [exact IH |].
  constructor; [| exact IH]. split; [| discriminate].
  rewrite <- Hs. apply strip_idem.
Qed.

(** X6. Every translation read from a reply is trimmed, not empty and free
    of newlines. *)
Theorem reply_lines_are_clean text :
  Forall (fun t => strip t = t /\ t <> [] /\ one_line t = true)
         (parse_reply text).
Proof.
  pose proof (stripped_lines_trimmed (split newline (strip text))) as Hclean.
  pose proof (stripped_lines_one_line _ (split_pieces_one_line (strip text)))
    as Hone.
  unfold parse_reply. rewrite Forall_forall in *. rewrite forallb_forall in Hone.
  intros t Ht. destruct (Hclean t Ht) as [Hs Hne]. auto.
Qed.

Lemma stripped_lines_clean texts :
  Forall Lines.clean texts -> stripped_lines texts = texts.
Proof.
  induction 1 as [| t texts [Hs Hne] _ IH]; [reflexivity |]. simpl.
  rewrite Hs. destruct t; [congruence |]. now rewrite IH.
Qed.

(** Joining clean one-line texts and reading the result as a reply gives
    the texts back. *)
Lemma echo_read_back texts :
  Forall Lines.clean texts -> forallb one_line texts = true ->
  align (join [newline] texts) texts = texts.
Proof.
  intros Hclean Hone.
  assert (Hparse : parse_reply (join [newline] texts) = texts).
  { rewrite parse_reply_join by exact Hone. now apply stripped_lines_clean. }
  unfold align. rewrite Hparse, Nat.eqb_refl. reflexivity.
Qed.

End ReplyShape.

Section GatewayShape.

Variable nd_table : char -> bool.
Variable CLAUDE_API_KEY : option str.
Variable post : api_request -> api_reply.

Local Abbreviation translate_texts := (Translator.translate_texts CLAUDE_API_KEY post).
Local Abbreviation extracted := (Translator.extracted nd_table).

Lemma extracted_clean nodes :
  Forall extracted nodes -> Forall Lines.clean (map original_text nodes).
Proof.
  induction 1 as [| n nodes (_ & Hne & Hs & _) _ IH]; simpl; constructor; auto.
  now split.
Qed.

(** X7. A successful [translate_texts] posted one request, whose content
    is the instruction, the original texts one per line, and the closing
    sentence; the reply had status 200, and the result is the reply's clean
    lines followed by the original texts from the index where the lines
    stop, so its length is the larger of the two counts. *)
Theorem translate_texts_shape nodes translations log :
  translate_texts nodes = (inr translations, log) ->
  exists key text,
    CLAUDE_API_KEY = Some key /\ key <> []
    /\ log = [make_request key (map original_text nodes)]
    /\ content (make_request key (map original_text nodes))
       = prompt_head ++ join [newline] (map original_text nodes) ++ prompt_tail
    /\ post (make_request key (map original_text nodes)) = Reply 200 (Some text)
    /\ translations
       = parse_reply text
         ++ skipn (List.length (parse_reply text)) (map original_text nodes)
    /\ List.length translations
       = Nat.max (List.length (parse_reply text)) (List.length nodes).
Proof.
  intros H. apply translate_texts_ok in H
    as (key & text & Hkey & Hne & Hlog & Hpost & ->).
  exists key, text. repeat split; auto.
  - apply align_closed.
  - now rewrite align_length, length_map.
Qed.

(** X8. When the service answers with the original texts themselves, one
    per line as they were sent, and no text holds a newline, the
    translations are the original texts. *)
Theorem echoed_texts_read_back key nodes :
  CLAUDE_API_KEY = Some key -> key <> [] ->
  Forall extracted nodes ->
  forallb one_line (map original_text nodes) = true ->
  post (make_request key (map original_text nodes))
  = Reply 200 (Some (join [newline] (map original_text nodes))) ->
  translate_texts nodes
  = (inr (map original_text nodes), [make_request key (map original_text nodes)]).
Proof.
  intros Hkey Hne Hext Hone Hpost. unfold Translator.translate_texts.
  rewrite Hkey. destruct key as [| c key]; [congruence |].
  rewrite Hpost. simpl.
  rewrite echo_read_back; auto. now apply extracted_clean.
Qed.

End GatewayShape.

(* ================================================================= *)
(** ** Texts with a newline *)

Section MultiLine.

Import PyStrFacts.

Lemma glue_empty_first xs ys : xs <> [] -> glue xs ([] :: ys) = xs ++ ys.
Proof.
  induction xs as [| x [| x2 xs] IH]; intros Hne; [congruence | |].
  - simpl. now rewrite app_nil_r.
  - change (glue (x :: x2 :: xs) ([] :: ys)) with (x :: glue (x2 :: xs) ([] :: ys)).
    rewrite IH by discriminate. reflexivity.
Qed.

Lemma split_not_nil s : split newline s <> [].
Proof. destruct (split_cons_form newline s) as (p & ps & ->). discriminate. Qed.

Lemma split_around_newline a b :
  split newline (a ++ newline :: b) = split newline a ++ split newline b.
Proof.
  rewrite split_app, split_sep_cons. apply glue_empty_first, split_not_nil.
Qed.

Lemma split_join_each t texts :
  split newline (join [newline] (t :: texts))
  = flat_map (split newline) (t :: texts).
Proof.
  revert t. induction texts as [| t2 texts IH]; intros t.
  - simpl. now rewrite app_nil_r.
  - change (join [newline] (t :: t2 :: texts))
      with (t ++ newline :: join [newline] (t2 :: texts)).
    rewrite split_around_newline, IH. reflexivity.
Qed.

Lemma stripped_lines_flat_map {A} (f : A -> list str) l :
  stripped_lines (flat_map f l) = flat_map (fun a => stripped_lines (f a)) l.
Proof.
  induction l as [| a l IH]; [reflexivity |]. simpl.
  now rewrite stripped_lines_app, IH.
Qed.

(** The reply that repeats the texts is read text by text. *)
Lemma parse_reply_joined texts :
  parse_reply (join [newline] texts)
  = flat_map (fun t => stripped_lines (split newline t)) texts.
Proof.
  rewrite parse_reply_lines. destruct texts as [| t texts]; [reflexivity |].
  now rewrite split_join_each, stripped_lines_flat_map.
Qed.

(** Lines that all strip to nothing come from white space. *)
Lemma no_lines_blank s :
  stripped_lines (split newline s) = [] -> blank s = true.
Proof.
  induction s as [| c s IH]; [reflexivity |]. cbn [split].
  destruct (char_eqb c newline) eqn:Hc.
  - cbn [stripped_lines]. change (strip []) with (@nil char). intros H.
    apply char_eqb_eq in Hc. subst c. unfold blank in *. simpl.
    now apply IH.
  - destruct (split newline s) as [| p ps] eqn:Hsplit.
    + now destruct (split_not_nil s).
    + cbn [stripped_lines] in *.
      destruct (strip (c :: p)) as [| x r] eqn:Hs; [| discriminate].
      intros Hps. apply strip_nil_iff in Hs. simpl in Hs.
      apply andb_true_iff in Hs as [Hcs Hp].
      unfold blank in *. simpl. rewrite Hcs. apply IH.
      apply strip_nil_iff in Hp. now rewrite Hp.
Qed.

Lemma lines_of_nonblank s :
  blank s = false -> 1 <= List.length (stripped_lines (split newline s)).
Proof.
  intros H. destruct (stripped_lines (split newline s)) eqn:E; [| simpl; lia].
  apply no_lines_blank in E. congruence.
Qed.

Lemma lstrip_head s c r : lstrip s = c :: r -> isspace c = false.
Proof.
  induction s as [| x s IH]; simpl; [discriminate |].
  destruct (isspace x) eqn:Hx; [exact IH |]. now intros [= <- _].
Qed.

(** A clean text starts and ends with a character that is not white
    space. *)
Lemma clean_ends t :
  Lines.clean t ->
  (exists c r, t = c :: r /\ isspace c = false)
  /\ (exists r c, t = r ++ [c] /\ isspace c = false).
Proof.
  intros [Hs Hne]. split.
  - destruct t as [| c r]; [congruence |]. exists c, r. split; [reflexivity |].
    unfold strip in Hs. destruct (lstrip (c :: r)) as [| d l] eqn:Hl.
    + discriminate Hs.
    + pose proof (lstrip_head _ Hl) as Hd.
      destruct (rstrip_decompose (d :: l)) as (sp & _ & Heq).
      rewrite Hs in Heq. simpl in Heq. injection Heq as <- _. exact Hd.
  - unfold strip, rstrip in Hs.
    destruct (lstrip (rev (lstrip t))) as [| e m] eqn:Hl.
    + simpl in Hs. congruence.
    + exists (rev m), e. split; [now rewrite <- Hs | now apply (lstrip_head _ Hl)].
Qed.

Lemma blank_app a b : blank (a ++ b) = blank a && blank b.
Proof. apply forallb_app. Qed.

Lemma newline_inside t :
  one_line t = false -> exists a b, t = a ++ newline :: b.
Proof.
  unfold one_line. rewrite negb_false_iff. intros H.
  apply existsb_exists in H as (x & Hin & Hx). apply char_eqb_eq in Hx.
  subst x. apply in_split in Hin as (a & b & ->). now exists a, b.
Qed.

Lemma lines_of_clean t :
  Lines.clean t ->
  1 <= List.length (stripped_lines (split newline t))
  /\ (one_line t = false ->
      2 <= List.length (stripped_lines (split newline t))).
Proof.
  intros Hclean.
  destruct (clean_ends Hclean) as [(c & r & Hfirst & Hc) (r' & e & Hlast & He)].
  split.
  - apply lines_of_nonblank. rewrite Hfirst. unfold blank. simpl. now rewrite Hc.
  - intros Hnl. apply newline_inside in Hnl as (a & b & Heq).
    rewrite Heq, split_around_newline, stripped_lines_app, length_app.
    assert (Ha : blank a = false).
    { destruct a as [| x a].
      - rewrite Hfirst in Heq. injection Heq as -> _. discriminate Hc.
      - rewrite Hfirst in Heq. injection Heq as -> _.
        unfold blank. simpl. now rewrite Hc. }
    assert (Hb : blank b = false).
    { destruct (blank b) eqn:Hb; [| reflexivity]. exfalso.
      assert (Hrev : rev t = e :: rev r') by (rewrite Hlast, rev_app_distr; reflexivity).
      rewrite Heq, rev_app_distr in Hrev. simpl in Hrev.
      destruct (rev b) as [| y rb] eqn:Hrb.
      - simpl in Hrev. injection Hrev as <- _. discriminate He.
      - simpl in Hrev. injection Hrev as <- _.
        unfold blank in Hb. rewrite <- forallb_rev, Hrb in Hb.
        simpl in Hb. now rewrite He in Hb. }
    pose proof (lines_of_nonblank _ Ha). pose proof (lines_of_nonblank _ Hb).
    lia.
Qed.

Lemma flat_map_at_least {A B} (g : A -> list B) l :
  (forall a, In a l -> 1 <= List.length (g a)) ->
  List.length l <= List.length (flat_map g l)
  /\ ((exists a, In a l /\ 2 <= List.length (g a)) ->
      List.length l < List.length (flat_map g l)).
Proof.
  induction l as [| x l IH]; intros Hone.
  - split; [simpl; lia | intros (a & [] & _)].
  - assert (Hx : 1 <= List.length (g x)) by (apply Hone; now left).
    destruct IH as [IHle IHlt]; [intros a Ha; apply Hone; now right |].
    simpl. rewrite length_app. split; [lia |].
    intros (a & [<- | Ha] & Htwo); [lia |].
    assert (List.length l < List.length (flat_map g l)) by (apply IHlt; eauto).
    lia.
Qed.

(** Texts with a newline take more lines than there are texts. *)
Lemma joined_texts_lines texts :
  Forall Lines.clean texts ->
  List.length texts <= List.length (parse_reply (join [newline] texts))
  /\ (forallb one_line texts = false ->
      List.length texts < List.length (parse_reply (join [newline] texts))).
Proof.
  intros Hclean. rewrite parse_reply_joined. rewrite Forall_forall in Hclean.
  destruct (flat_map_at_least (fun t => stripped_lines (split newline t)) texts)
    as [Hle Hlt].
  { intros t Ht. now apply lines_of_clean, Hclean. }
  split; [exact Hle |]. intros Hmulti. apply Hlt.
  assert (Hex : exists t, In t texts /\ one_line t = false).
  { clear - Hmulti. induction texts as [| t texts IH]; [discriminate |].
    simpl in Hmulti. destruct (one_line t) eqn:Ht.
    - destruct (IH Hmulti) as (t' & Hin & Ht'). exists t'. split; [now right | auto].
    - exists t. split; [now left | auto]. }
  destruct Hex as (t & Hin & Ht). exists t. split; [exact Hin |].
  now apply lines_of_clean; [apply Hclean |].
Qed.

End MultiLine.

Section MultiLineGateway.

Variable nd_table : char -> bool.
Variable CLAUDE_API_KEY : option str.
Variable post : api_request -> api_reply.

Local Abbreviation translate_texts := (Translator.translate_texts CLAUDE_API_KEY post).
Local Abbreviation extracted := (Translator.extracted nd_table).

(** X9. A node text that holds a newline is sent as several lines. When
    the service answers line for line, even with the very lines it was
    sent, [translate_texts] returns more translations than there are nodes,
    the lines of the reply as they come. *)
Theorem multiline_text_misaligns key nodes :
  CLAUDE_API_KEY = Some key -> key <> [] ->
  Forall extracted nodes ->
  forallb one_line (map original_text nodes) = false ->
  post (make_request key (map original_text nodes))
  = Reply 200 (Some (join [newline] (map original_text nodes))) ->
  exists translations,
    translate_texts nodes
    = (inr translations, [make_request key (map original_text nodes)])
    /\ translations = parse_reply (join [newline] (map original_text nodes))
    /\ List.length nodes < List.length translations.
Proof.
  intros Hkey Hne Hext Hmulti Hpost.
  destruct (joined_texts_lines (extracted_clean Hext)) as [_ Hlt].
  specialize (Hlt Hmulti). rewrite length_map in Hlt.
  exists (parse_reply (join [newline] (map original_text nodes))).
  split; [| split; [reflexivity | exact Hlt]].
  unfold Translator.translate_texts. rewrite Hkey.
  destruct key as [| c key]; [congruence |]. rewrite Hpost. simpl.
  rewrite align_closed, skipn_all2, app_nil_r; [reflexivity |].
  rewrite length_map. lia.
Qed.

End MultiLineGateway.

(* ================================================================= *)
(** ** More on reconstruction and the report *)

Section ReconstructionMore.

Import PyStrFacts.

Variable fromstring : str -> option element.
Variable now : str.

Local Abbreviation reconstruct_mui_file := (Translator.reconstruct_mui_file fromstring).
Local Abbreviation generate_translation_report :=
  (Translator.generate_translation_report now).

Lemma substitute_from_prefix translations extra items : forall i w,
  i + List.length items <= List.length translations ->
  substitute_from (translations ++ extra) i items w
  = substitute_from translations i items w.
Proof.
  induction items as [| item items IH]; intros i w Hlen; [reflexivity |].
  simpl in *. unfold substitute.
  rewrite nth_error_app1 by lia. apply IH. lia.
Qed.

Lemma report_records_prefix translations extra items : forall i,
  i + List.length items <= List.length translations ->
  report_records (translations ++ extra) i items
  = report_records translations i items.
Proof.
  induction items as [| item items IH]; intros i Hlen; [reflexivity |].
  simpl in *. rewrite nth_error_app1 by lia. f_equal. apply IH. lia.
Qed.

(** X10. Translations beyond the number of nodes change nothing in the
    reconstructed file and add no record to the report; only the count in
    the report's header grows with them. *)
Theorem surplus_translations_unused self translations extra :
  List.length (translatable_texts self) <= List.length translations ->
  reconstruct_mui_file self (translations ++ extra)
  = reconstruct_mui_file self translations
  /\ report_records (translations ++ extra) 0 (translatable_texts self)
     = report_records translations 0 (translatable_texts self)
  /\ generate_translation_report self (translations ++ extra)
     = join [newline]
         (report_header now (translations ++ extra)
          ++ report_records translations 0 (translatable_texts self)).
Proof.
  intros Hlen. split; [| split].
  - unfold Translator.reconstruct_mui_file.
    destruct (original_structure self) as [original |]; [| reflexivity].
    now rewrite substitute_from_prefix by (simpl; lia).
  - now apply report_records_prefix.
  - unfold Translator.generate_translation_report.
    now rewrite report_records_prefix by (simpl; lia).
Qed.

Lemma substitute_from_none items : forall i w,
  substitute_from [] i items w = w.
Proof.
  induction items as [| item items IH]; intros i w; [reflexivity |].
  simpl. unfold substitute. rewrite IH. now destruct i.
Qed.

Lemma substitute_from_absent translations items w : forall i,
  Forall (fun n => find w (element_full_match n) = None) items ->
  substitute_from translations i items w = w.
Proof.
  induction items as [| item items IH]; intros i Hall; [reflexivity |].
  inversion Hall as [| ? ? Hitem Hrest]; subst. simpl.
  assert (Hsame : substitute translations i item w = w).
  { unfold substitute. destruct (nth_error translations i); [| reflexivity].
    now apply replace_first_absent. }
  rewrite Hsame. now apply IH.
Qed.

(** X11. When there is no translation at all, or when no node's snippet
    occurs in the stored text, [reconstruct_mui_file] returns the stored
    text as it is, provided it parses: translations that find no snippet
    are dropped without an error. *)
Theorem reconstruct_without_effect self translations original root :
  original_structure self = Some original ->
  fromstring original = Some root ->
  translations = []
  \/ Forall (fun n => find original (element_full_match n) = None)
            (translatable_texts self) ->
  reconstruct_mui_file self translations = inr original.
Proof.
  intros Horig Hparse Hcase. unfold Translator.reconstruct_mui_file.
  rewrite Horig.
  assert (Hsame : substitute_from translations 0 (translatable_texts self) original
                  = original).
  { destruct Hcase as [-> | Habsent].
    - apply substitute_from_none.
    - now apply substitute_from_absent. }
  now rewrite Hsame, Hparse.
Qed.

End ReconstructionMore.

Section PipelineReport.

Variable CLAUDE_API_KEY : option str.
Variable post : api_request -> api_reply.
Variable now : str.

Local Abbreviation translate_texts := (Translator.translate_texts CLAUDE_API_KEY post).
Local Abbreviation generate_translation_report :=
  (Translator.generate_translation_report now).

Lemma combine_covers {A B} (l : list A) (l' : list B) :
  List.length l <= List.length l' -> map fst (combine l l') = l.
Proof.
  revert l'. induction l as [| a l IH]; intros [| b l'] Hlen;
    simpl in *; try reflexivity; try lia.
  f_equal. apply IH. lia.
Qed.

(** X12. After a successful [translate_texts] the report has a record for
    every node, in the order of the nodes, each with the translation at the
    node's index; the count in its header is at least the number of
    nodes. *)
Theorem report_after_translation self translations log :
  translate_texts (translatable_texts self) = (inr translations, log) ->
  let pairs := combine (translatable_texts self) translations in
  generate_translation_report self translations
  = join [newline]
      (report_header now translations
       ++ flat_map (fun p => report_record (fst p) (snd p)) pairs)
  /\ map fst pairs = translatable_texts self
  /\ List.length (translatable_texts self) <= List.length translations.
Proof.
  intros H pairs. apply translate_texts_ok in H
    as (key & text & _ & _ & _ & _ & ->).
  assert (Hlen : List.length (translatable_texts self)
                 <= List.length (align text (map original_text (translatable_texts self)))).
  { rewrite align_length, length_map. lia. }
  split; [| split; [now apply combine_covers | exact Hlen]].
  unfold Translator.generate_translation_report.
  now rewrite report_records_combine.
Qed.

End PipelineReport.

(* ================================================================= *)
(** ** More on the endpoints *)

Section EndpointOutcomes.

Variable fromstring : str -> option element.
Variable nd_table : char -> bool.
Variable CLAUDE_API_KEY : option str.
Variable post : api_request -> api_reply.
Variable now : str.
Variable lower : str -> str.

Local Abbreviation process :=
  (Translator.process fromstring nd_table CLAUDE_API_KEY post now).
Local Abbreviation translate_mui_file :=
  (Translator.translate_mui_file fromstring nd_table CLAUDE_API_KEY post now lower).
Local Abbreviation translate_texts := (Translator.translate_texts CLAUDE_API_KEY post).
Local Abbreviation extract_texts := (Translator.extract_texts nd_table).
Local Abbreviation reconstruct_mui_file := (Translator.reconstruct_mui_file fromstring).
Local Abbreviation generate_translation_report :=
  (Translator.generate_translation_report now).
Local Abbreviation parsed := (Walk.parsed nd_table).

(** The steps after a parse that found nodes, with a key. *)
Lemma process_with_key file_content root key :
  fromstring (strip_bom file_content) = Some root ->
  extract_texts root [] <> [] ->
  CLAUDE_API_KEY = Some key -> key <> [] ->
  let texts := map original_text (extract_texts root []) in
  process file_content
  = (match post (make_request key texts) with
     | NoReply => inl (TranslationFailed NoUsableReply)
     | Reply status_code payload =>
         if status_code =? 200 then
           match payload with
           | None => inl (TranslationFailed NoUsableReply)
           | Some text =>
               match reconstruct_mui_file (parsed file_content root)
                                          (align text texts) with
               | inr t =>
                   inr (Archive t (generate_translation_report
                                     (parsed file_content root) (align text texts)))
               | inl e => inl e
               end
           end
         else inl (TranslationFailed (BadStatus status_code))
     end, [make_request key texts]).
Proof.
  intros Hparse Hnodes Hkey Hne texts.
  unfold Translator.process, Translator.parse_mui_file, lift, bind.
  rewrite Hparse. fold (parsed file_content root).
  destruct (Translator.extract_texts nd_table root []) as [| n nodes] eqn:Hn;
    [congruence |].
  unfold Translator.translate_texts. rewrite Hkey.
  destruct key as [| c key]; [congruence |].
  subst texts. unfold Walk.parsed. rewrite Hn.
  destruct (post _) as [| status payload]; [reflexivity |].
  destruct (status =? 200); simpl; [| reflexivity].
  destruct payload as [text |]; [| reflexivity].
  destruct (Translator.reconstruct_mui_file _ _ _); reflexivity.
Qed.

Lemma accepted_upload up file_content :
  filename up <> [] ->
  endswith (lower (filename up)) (lit ".mui") = true ->
  decoded up = Some file_content ->
  translate_mui_file (Some up)
  = match process file_content with
    | (inr resp, log) => (resp, log)
    | (inl e, log) => (ServerError e, log)
    end.
Proof.
  intros Hname Hext Hdec. unfold Translator.translate_mui_file.
  destruct (filename up); [congruence |]. now rewrite Hext, Hdec.
Qed.

Lemma key_cases :
  CLAUDE_API_KEY = None \/ CLAUDE_API_KEY = Some []
  \/ exists c key, CLAUDE_API_KEY = Some (c :: key).
Proof. destruct CLAUDE_API_KEY as [[| c key] |]; eauto. Qed.

(** What the endpoint answers once the upload is accepted, by the stage
    the steps reach. *)
Lemma accepted_outcome up file_content resp log :
  filename up <> [] ->
  endswith (lower (filename up)) (lit ".mui") = true ->
  decoded up = Some file_content ->
  translate_mui_file (Some up) = (resp, log) ->
  match fromstring (strip_bom file_content) with
  | None => resp = ServerError InvalidMuiFile /\ log = []
  | Some root =>
      let texts := map original_text (extract_texts root []) in
      match extract_texts root [], CLAUDE_API_KEY with
      | [], _ => resp = BadRequest NoTranslatableTexts /\ log = []
      | _ :: _, None | _ :: _, Some [] => resp = ServerError MissingApiKey /\ log = []
      | _ :: _, Some key =>
          log = [make_request key texts]
          /\ match post (make_request key texts) with
             | NoReply => resp = ServerError (TranslationFailed NoUsableReply)
             | Reply status_code payload =>
                 if status_code =? 200 then
                   match payload with
                   | None => resp = ServerError (TranslationFailed NoUsableReply)
                   | Some text =>
                       match reconstruct_mui_file (parsed file_content root)
                                                  (align text texts) with
                       | inr t =>
                           resp = Archive t (generate_translation_report
                                               (parsed file_content root)
                                               (align text texts))
                       | inl e => resp = ServerError e
                       end
                   end
                 else resp = ServerError (TranslationFailed (BadStatus status_code))
             end
      end
  end.
Proof.
  intros Hname Hext Hdec. rewrite (accepted_upload _ Hname Hext Hdec).
  destruct (fromstring (strip_bom file_content)) as [root |] eqn:Hparse.
  2: { unfold Translator.process, Translator.parse_mui_file, lift, bind.
       rewrite Hparse. now intros [= <- <-]. }
  destruct (Translator.extract_texts nd_table root []) as [| n nodes] eqn:Hn.
  { unfold Translator.process, Translator.parse_mui_file, lift, bind.
    rewrite Hparse, Hn. now intros [= <- <-]. }
  destruct key_cases as [Hkey | [Hkey | (c & key & Hkey)]].
  1, 2: unfold Translator.process, Translator.parse_mui_file, lift, bind,
          Translator.translate_texts, raise;
        rewrite Hparse, Hn, Hkey; now intros [= <- <-].
  assert (Hnodes : Translator.extract_texts nd_table root [] <> [])
    by (rewrite Hn; discriminate).
  assert (Hne : c :: key <> []) by discriminate.
  pose proof (process_with_key file_content Hparse Hnodes Hkey Hne) as Hrun.
  cbv zeta in Hrun. rewrite Hn in Hrun. rewrite Hrun, Hkey. simpl.
  destruct (post _) as [| status payload]; [now intros [= <- <-] |].
  destruct (status =? 200); [| now intros [= <- <-]].
  destruct payload as [text |]; [| now intros [= <- <-]].
  destruct (Translator.reconstruct_mui_file _ _ _); now intros [= <- <-].
Qed.

(** An answer other than a rejected upload comes from an accepted one. *)
Lemma archive_from_accepted file t r log :
  translate_mui_file file = (Archive t r, log) ->
  exists up file_content,
    file = Some up /\ filename up <> []
    /\ endswith (lower (filename up)) (lit ".mui") = true
    /\ decoded up = Some file_content.
Proof.
  unfold Translator.translate_mui_file.
  destruct file as [up |]; [| discriminate].
  destruct (filename up) as [| c name] eqn:Hname; [discriminate |].
  destruct (endswith _ _) eqn:Hext; simpl; [| discriminate].
  destruct (decoded up) as [file_content |] eqn:Hdec; [| discriminate].
  intros _. exists up, file_content. rewrite Hname. repeat split; auto.
  discriminate.
Qed.

(** An upload is turned away before parsing, with nothing posted, or it is
    accepted. *)
Lemma turned_away_or_accepted file resp log :
  translate_mui_file file = (resp, log) ->
  (log = [] /\ ((exists why, resp = BadRequest why)
                \/ resp = ServerError UndecodableUpload))
  \/ exists up file_content,
       file = Some up /\ filename up <> []
       /\ endswith (lower (filename up)) (lit ".mui") = true
       /\ decoded up = Some file_content.
Proof.
  unfold Translator.translate_mui_file.
  destruct file as [up |]; [| intros [= <- <-]; left; eauto].
  destruct (filename up) as [| c name] eqn:Hname;
    [intros [= <- <-]; left; eauto |].
  rewrite <- Hname.
  destruct (endswith _ _) eqn:Hext; simpl;
    [| intros [= <- <-]; left; eauto].
  destruct (decoded up) as [file_content |] eqn:Hdec;
    [| intros [= <- <-]; left; eauto].
  intros _. right. exists up, file_content. rewrite Hname.
  repeat split; auto; try discriminate. now rewrite <- Hname.
Qed.

Lemma reconstruct_ok_inv self translations t :
  reconstruct_mui_file self translations = inr t ->
  exists original root',
    original_structure self = Some original
    /\ t = substitute_from translations 0 (translatable_texts self) original
    /\ fromstring t = Some root'.
Proof.
  unfold Translator.reconstruct_mui_file.
  destruct (original_structure self) as [original |]; [| discriminate].
  destruct (fromstring (substitute_from _ _ _ _)) as [root' |] eqn:Hv;
    [| discriminate].
  intros [= <-]. now exists original, root'.
Qed.

Lemma archive_is_posted file t r log :
  translate_mui_file file = (Archive t r, log) ->
  exists request text, post request = Reply 200 (Some text).
Proof.
  intros Hrun.
  destruct (archive_from_accepted _ Hrun) as (up & fc & -> & Hname & Hext & Hdec).
  pose proof (accepted_outcome _ Hname Hext Hdec Hrun) as Hout.
  destruct (fromstring (strip_bom fc)) as [root |];
    [| destruct Hout; discriminate].
  cbv zeta in Hout.
  destruct (Translator.extract_texts nd_table root []) as [| n nodes];
    [destruct Hout; discriminate |].
  destruct key_cases as [Hkey | [Hkey | (c & key & Hkey)]]; rewrite Hkey in Hout;
    try (destruct Hout; discriminate).
  destruct Hout as [_ Hout].
  destruct (post _) as [| status payload] eqn:Hpost; [discriminate |].
  destruct (status =? 200) eqn:Hs; [| discriminate].
  apply Nat.eqb_eq in Hs. subst status.
  destruct payload as [text |]; [| discriminate]. eauto.
Qed.

(** X13. A response that carries the archive was produced by one request
    to the service, answered with status 200; the translated file in it is
    the stored text after all substitutions, the parser accepts it, and the
    report in it is the report for the same translations. *)
Theorem archive_is_validated file t r log :
  translate_mui_file file = (Archive t r, log) ->
  exists up file_content root key text,
    file = Some up /\ decoded up = Some file_content
    /\ fromstring (strip_bom file_content) = Some root
    /\ CLAUDE_API_KEY = Some key
    /\ let texts := map original_text (extract_texts root []) in
       let translations := align text texts in
       log = [make_request key texts]
       /\ post (make_request key texts) = Reply 200 (Some text)
       /\ t = substitute_from translations 0 (extract_texts root [])
                              (strip_bom file_content)
       /\ (exists root', fromstring t = Some root')
       /\ r = generate_translation_report (parsed file_content root) translations.
Proof.
  intros Hrun.
  destruct (archive_from_accepted _ Hrun) as (up & fc & -> & Hname & Hext & Hdec).
  pose proof (accepted_outcome _ Hname Hext Hdec Hrun) as Hout.
  destruct (fromstring (strip_bom fc)) as [root |] eqn:Hparse;
    [| destruct Hout; discriminate].
  cbv zeta in Hout.
  destruct (Translator.extract_texts nd_table root []) as [| n nodes] eqn:Hn;
    [destruct Hout; discriminate |].
  destruct key_cases as [Hkey | [Hkey | (c & key & Hkey)]]; rewrite Hkey in Hout;
    try (destruct Hout; discriminate).
  destruct Hout as [Hlog Hout].
  destruct (post _) as [| status payload] eqn:Hpost; [discriminate |].
  destruct (status =? 200) eqn:Hs; [| discriminate].
  apply Nat.eqb_eq in Hs. subst status.
  destruct payload as [text |]; [| discriminate].
  destruct (Translator.reconstruct_mui_file _ _ _) as [e | t'] eqn:Hrec;
    [discriminate |].
  injection Hout as Ht Hr. subst t r.
  exists up, fc, root, (c :: key), text. rewrite Hn.
  apply reconstruct_ok_inv in Hrec as (original & root' & Ho & Ht & Hv).
  simpl in Ho, Ht. injection Ho as <-. rewrite Hn in Ht.
  repeat split; auto. now exists root'.
Qed.

(** X14. When the service gives no reply with status 200 and a text, no
    response carries an archive; a request was posted only to end with the
    translation error. *)
Theorem gateway_failure_is_fatal file resp log :
  (forall request text, post request <> Reply 200 (Some text)) ->
  translate_mui_file file = (resp, log) ->
  (forall t r, resp <> Archive t r)
  /\ (log <> [] -> exists f, resp = ServerError (TranslationFailed f)).
Proof.
  intros Hdown Hrun. split.
  - intros t r ->.
    destruct (archive_is_posted _ Hrun) as (request & text & Hpost).
    exact (Hdown _ _ Hpost).
  - intros Hlog.
    destruct (turned_away_or_accepted _ Hrun)
      as [[Hnil _] | (up & fc & -> & Hname & Hext & Hdec)]; [congruence |].
    pose proof (accepted_outcome _ Hname Hext Hdec Hrun) as Hout.
    destruct (fromstring (strip_bom fc)) as [root |];
      [| destruct Hout; congruence].
    cbv zeta in Hout.
    destruct (Translator.extract_texts nd_table root []) as [| n nodes];
      [destruct Hout; congruence |].
    destruct key_cases as [Hkey | [Hkey | (k & key & Hkey)]]; rewrite Hkey in Hout;
      try (destruct Hout; congruence).
    destruct Hout as [_ Hout].
    destruct (post _) as [| status payload] eqn:Hpost; [eauto |].
    destruct (status =? 200) eqn:Hs; [| eauto].
    apply Nat.eqb_eq in Hs. subst status.
    destruct payload as [text |]; [| eauto].
    now destruct (Hdown _ _ Hpost).
Qed.

(** X15. When the service answers with the original texts, one per line
    as they were sent, and no text holds a newline, the endpoint returns the
    uploaded document itself, byte-order marks removed, with the report that
    pairs every text with itself. *)
Theorem echoing_service_returns_document up file_content root key :
  filename up <> [] ->
  endswith (lower (filename up)) (lit ".mui") = true ->
  decoded up = Some file_content ->
  fromstring (strip_bom file_content) = Some root ->
  extract_texts root [] <> [] ->
  CLAUDE_API_KEY = Some key -> key <> [] ->
  let texts := map original_text (extract_texts root []) in
  forallb one_line texts = true ->
  post (make_request key texts) = Reply 200 (Some (join [newline] texts)) ->
  translate_mui_file (Some up)
  = (Archive (strip_bom file_content)
             (generate_translation_report (parsed file_content root) texts),
     [make_request key texts]).
Proof.
  intros Hname Hext Hdec Hparse Hnodes Hkey Hne texts Hone Hpost.
  subst texts. rewrite (accepted_upload _ Hname Hext Hdec).
  pose proof (process_with_key file_content Hparse Hnodes Hkey Hne) as Hrun.
  cbv zeta in Hrun. rewrite Hrun, Hpost, Nat.eqb_refl.
  pose proof (extract_texts_extracted nd_table root []) as Hext'.
  rewrite (echo_read_back (extracted_clean Hext') Hone).
  assert (Hrec : reconstruct_mui_file (parsed file_content root)
                   (map original_text (extract_texts root []))
                 = inr (strip_bom file_content)).
  { unfold Translator.reconstruct_mui_file. simpl.
    pose proof (substitute_from_originals [] (strip_bom file_content) Hext') as Hid.
    simpl in Hid. now rewrite Hid, Hparse. }
  now rewrite Hrec.
Qed.

(** X16. The text of the root element itself is never extracted: a
    document whose root has no child elements is answered with the
    rejection for no translatable texts, whatever the root holds, and
    nothing is posted. *)
Theorem root_text_is_not_extracted up file_content root_tag root_text :
  filename up <> [] ->
  endswith (lower (filename up)) (lit ".mui") = true ->
  decoded up = Some file_content ->
  fromstring (strip_bom file_content) = Some (Element root_tag root_text []) ->
  translate_mui_file (Some up) = (BadRequest NoTranslatableTexts, []).
Proof.
  intros Hname Hext Hdec Hparse.
  rewrite (accepted_upload _ Hname Hext Hdec).
  unfold Translator.process, Translator.parse_mui_file, lift, bind.
  now rewrite Hparse.
Qed.

End EndpointOutcomes.

Section StatusEndpoints.

Variable CLAUDE_API_KEY : option str.
Variable post : api_request -> api_reply.
Variable now_iso : str.

Local Abbreviation translate_texts := (Translator.translate_texts CLAUDE_API_KEY post).
Local Abbreviation test_endpoint := (Service.test_endpoint CLAUDE_API_KEY now_iso).

(** X17. [/test] and [translate_texts] agree on the key: when [/test]
    reports it as not configured, every call of [translate_texts] fails
    with the missing-key error and posts nothing; when it reports it as
    configured, every call posts exactly one request, carrying that key,
    and never fails with the missing-key error. *)
Theorem test_endpoint_agrees_with_translate :
  (Service.claude_api_configured test_endpoint = false ->
   forall nodes, translate_texts nodes = (inl MissingApiKey, []))
  /\ (Service.claude_api_configured test_endpoint = true ->
      forall nodes, exists outcome key,
        CLAUDE_API_KEY = Some key
        /\ translate_texts nodes
           = (outcome, [make_request key (map original_text nodes)])
        /\ outcome <> inl MissingApiKey).
Proof.
  unfold Service.test_endpoint, Service.key_truth, Translator.translate_texts.
  simpl. destruct CLAUDE_API_KEY as [[| c key] |]; split; try discriminate;
    try reflexivity.
  intros _ nodes.
  destruct (post (make_request (c :: key) (map original_text nodes)))
    as [| status payload] eqn:Hpost.
  - eexists. exists (c :: key). split; [reflexivity |].
    split; [reflexivity | discriminate].
  - destruct (negb (status =? 200)) eqn:Hs.
    + eexists. exists (c :: key). split; [reflexivity |].
      split; [reflexivity | discriminate].
    + destruct payload as [text |].
      * eexists. exists (c :: key). split; [reflexivity |].
        split; [reflexivity | discriminate].
      * eexists. exists (c :: key). split; [reflexivity |].
        split; [reflexivity | discriminate].
Qed.

End StatusEndpoints.

(* ================================================================= *)
(** ** The further theorems at concrete inputs *)

Lemma prose_is_code_like_only_by_dollar_run :
  Direct.prose_char 32%N = true
  /\ In 32%N (lit "Cutting Speed")
  /\ 2 <= List.length (lit "Cutting Speed")
  /\ Translator.is_code_like Lite.no_digits (lit "Cutting Speed")
     = Direct.dollar_prefixed (lit "Cutting Speed").
Proof.
  assert (H1 : Direct.prose_char 32%N = true) by reflexivity.
  assert (H2 : In 32%N (lit "Cutting Speed")) by (vm_compute; tauto).
  assert (H3 : 2 <= List.length (lit "Cutting Speed")) by (vm_compute; lia).
  split; [exact H1 | split; [exact H2 | split; [exact H3 |]]].
  exact (@prose_is_code_like_only_by_dollar Lite.no_digits _ _ H1 H2 H3).
Defined.

Lemma parsed_nodes_invariant_run :
  Translator.parse_mui_file Lite.fromstring Lite.no_digits init Samples.doc_abcd
  = inr (MoreRuns.sample_state, [Samples.node_a; Samples.node_d])
  /\ translatable_texts MoreRuns.sample_state = [Samples.node_a; Samples.node_d].
Proof.
  assert (H : Translator.parse_mui_file Lite.fromstring Lite.no_digits init
                Samples.doc_abcd
              = inr (MoreRuns.sample_state, [Samples.node_a; Samples.node_d]))
    by (vm_compute; reflexivity).
  split; [exact H |].
  exact (proj1 (@parsed_nodes_invariant _ _ _ _ _ _ H)).
Defined.

Lemma translate_texts_shape_run :
  Translator.translate_texts (Some MoreRuns.key) Runs.two_line_reply [Samples.node_a]
  = (inr [lit "Metoda przebicia"; lit "Typ lasera"],
     [make_request MoreRuns.key [lit "Pierce Method"]])
  /\ exists key text,
       Some MoreRuns.key = Some key /\ key <> []
       /\ [make_request MoreRuns.key [lit "Pierce Method"]]
          = [make_request key (map original_text [Samples.node_a])]
       /\ content (make_request key (map original_text [Samples.node_a]))
          = prompt_head ++ join [newline] (map original_text [Samples.node_a])
            ++ prompt_tail
       /\ Runs.two_line_reply (make_request key (map original_text [Samples.node_a]))
          = Reply 200 (Some text)
       /\ [lit "Metoda przebicia"; lit "Typ lasera"]
          = parse_reply text
            ++ skipn (List.length (parse_reply text))
                     (map original_text [Samples.node_a])
       /\ List.length [lit "Metoda przebicia"; lit "Typ lasera"]
          = Nat.max (List.length (parse_reply text)) (List.length [Samples.node_a]).
Proof.
  assert (H : Translator.translate_texts (Some MoreRuns.key) Runs.two_line_reply
                [Samples.node_a]
              = (inr [lit "Metoda przebicia"; lit "Typ lasera"],
                 [make_request MoreRuns.key [lit "Pierce Method"]]))
    by (vm_compute; reflexivity).
  split; [exact H |].
  exact (@translate_texts_shape _ _ _ _ _ H).
Defined.

Lemma sample_nodes_extracted :
  Forall (Translator.extracted Lite.no_digits) [Samples.node_a; Samples.node_d].
Proof.
  repeat constructor; try (vm_compute; reflexivity); discriminate.
Defined.

Lemma echoed_texts_read_back_run :
  forallb one_line (map original_text [Samples.node_a; Samples.node_d]) = true
  /\ Translator.translate_texts (Some MoreRuns.key)
       (MoreRuns.echo_of MoreRuns.sample_texts) [Samples.node_a; Samples.node_d]
     = (inr MoreRuns.sample_texts,
        [make_request MoreRuns.key MoreRuns.sample_texts]).
Proof.
  assert (Hone : forallb one_line
                   (map original_text [Samples.node_a; Samples.node_d]) = true)
    by reflexivity.
  split; [exact Hone |].
  apply (@echoed_texts_read_back Lite.no_digits (Some MoreRuns.key)
           (MoreRuns.echo_of MoreRuns.sample_texts) MoreRuns.key
           [Samples.node_a; Samples.node_d]).
  - reflexivity.
  - discriminate.
  - exact sample_nodes_extracted.
  - exact Hone.
  - reflexivity.
Defined.

Lemma two_line_node_extracted :
  Forall (Translator.extracted Lite.no_digits) [MoreRuns.node_two_lines].
Proof.
  repeat constructor; try (vm_compute; reflexivity); discriminate.
Defined.

Lemma multiline_text_misaligns_run :
  forallb one_line (map original_text [MoreRuns.node_two_lines]) = false
  /\ exists translations,
       Translator.translate_texts (Some MoreRuns.key)
         (MoreRuns.echo_of (map original_text [MoreRuns.node_two_lines]))
         [MoreRuns.node_two_lines]
       = (inr translations,
          [make_request MoreRuns.key (map original_text [MoreRuns.node_two_lines])])
       /\ translations
          = parse_reply (join [newline] (map original_text [MoreRuns.node_two_lines]))
       /\ List.length [MoreRuns.node_two_lines] < List.length translations.
Proof.
  assert (Hmulti : forallb one_line (map original_text [MoreRuns.node_two_lines])
                   = false) by reflexivity.
  split; [exact Hmulti |].
  apply (@multiline_text_misaligns Lite.no_digits (Some MoreRuns.key)
           (MoreRuns.echo_of (map original_text [MoreRuns.node_two_lines]))
           MoreRuns.key [MoreRuns.node_two_lines]).
  - reflexivity.
  - discriminate.
  - exact two_line_node_extracted.
  - exact Hmulti.
  - reflexivity.
Defined.

Lemma surplus_translations_unused_run :
  List.length (translatable_texts MoreRuns.sample_state)
  <= List.length [lit "Metoda przebicia"; lit "Typ lasera"]
  /\ Translator.reconstruct_mui_file Lite.fromstring MoreRuns.sample_state
       ([lit "Metoda przebicia"; lit "Typ lasera"] ++ [lit "Moc"])
     = Translator.reconstruct_mui_file Lite.fromstring MoreRuns.sample_state
         [lit "Metoda przebicia"; lit "Typ lasera"].
Proof.
  assert (Hlen : List.length (translatable_texts MoreRuns.sample_state)
                 <= List.length [lit "Metoda przebicia"; lit "Typ lasera"])
    by (simpl; lia).
  split; [exact Hlen |].
  exact (proj1 (@surplus_translations_unused Lite.fromstring MoreRuns.stamp
                  MoreRuns.sample_state _ [lit "Moc"] Hlen)).
Defined.

Lemma reconstruct_without_effect_run :
  original_structure MoreRuns.padded_state = Some MoreRuns.padded_doc
  /\ Lite.fromstring MoreRuns.padded_doc
     = Some (Element (lit "r") None [Element (lit "a") (Some (lit " Hello world ")) []])
  /\ Forall (fun n => find MoreRuns.padded_doc (element_full_match n) = None)
            (translatable_texts MoreRuns.padded_state)
  /\ Translator.reconstruct_mui_file Lite.fromstring MoreRuns.padded_state
       [lit "Witaj"]
     = inr MoreRuns.padded_doc.
Proof.
  assert (H1 : original_structure MoreRuns.padded_state = Some MoreRuns.padded_doc)
    by reflexivity.
  assert (H2 : Lite.fromstring MoreRuns.padded_doc
               = Some (Element (lit "r") None
                         [Element (lit "a") (Some (lit " Hello world ")) []]))
    by (vm_compute; reflexivity).
  assert (H3 : Forall (fun n => find MoreRuns.padded_doc (element_full_match n) = None)
                      (translatable_texts MoreRuns.padded_state))
    by (repeat constructor).
  split; [exact H1 | split; [exact H2 | split; [exact H3 |]]].
  exact (@reconstruct_without_effect Lite.fromstring MoreRuns.padded_state
           [lit "Witaj"] _ _ H1 H2 (or_intror H3)).
Defined.

Lemma report_after_translation_run :
  Translator.translate_texts (Some MoreRuns.key) Runs.two_line_reply
    (translatable_texts MoreRuns.sample_state)
  = (inr [lit "Metoda przebicia"; lit "Typ lasera"],
     [make_request MoreRuns.key MoreRuns.sample_texts])
  /\ map fst (combine (translatable_texts MoreRuns.sample_state)
                      [lit "Metoda przebicia"; lit "Typ lasera"])
     = translatable_texts MoreRuns.sample_state.
Proof.
  assert (H : Translator.translate_texts (Some MoreRuns.key) Runs.two_line_reply
                (translatable_texts MoreRuns.sample_state)
              = (inr [lit "Metoda przebicia"; lit "Typ lasera"],
                 [make_request MoreRuns.key MoreRuns.sample_texts]))
    by (vm_compute; reflexivity).
  split; [exact H |].
  exact (proj1 (proj2 (@report_after_translation _ _ MoreRuns.stamp
                         MoreRuns.sample_state _ _ H))).
Defined.

Lemma archive_is_validated_run :
  exists t r log,
    Runs.run_panel = (Archive t r, log)
    /\ exists root', Lite.fromstring t = Some root'.
Proof.
  assert (H : exists t r log, Runs.run_panel = (Archive t r, log))
    by (do 3 eexists; vm_compute; reflexivity).
  destruct H as (t & r & log & Hrun). exists t, r, log.
  split; [exact Hrun |].
  destruct (@archive_is_validated _ _ _ _ _ _ _ _ _ _ Hrun)
    as (up & fc & root & key & text & _ & _ & _ & _ & Hrest).
  exact (proj1 (proj2 (proj2 (proj2 Hrest)))).
Defined.

Lemma gateway_failure_is_fatal_run :
  let run := Translator.translate_mui_file Lite.fromstring Lite.no_digits
               (Some MoreRuns.key) MoreRuns.unavailable MoreRuns.stamp
               Lite.ascii_lower (Some Runs.panel) in
  (forall request text, MoreRuns.unavailable request <> Reply 200 (Some text))
  /\ run = (fst run, snd run)
  /\ forall t r, fst run <> Archive t r.
Proof.
  intros run.
  assert (Hdown : forall request text,
             MoreRuns.unavailable request <> Reply 200 (Some text))
    by (intros request text; discriminate).
  assert (Hrun : run = (fst run, snd run)) by (vm_compute; reflexivity).
  split; [exact Hdown | split; [exact Hrun |]].
  exact (proj1 (@gateway_failure_is_fatal _ _ _ _ _ _ _ _ _ Hdown Hrun)).
Defined.

Lemma echoing_service_returns_document_run :
  Translator.translate_mui_file Lite.fromstring Lite.no_digits
    (Some MoreRuns.key) (MoreRuns.echo_of MoreRuns.sample_texts) MoreRuns.stamp
    Lite.ascii_lower (Some Runs.panel)
  = (Archive (strip_bom Samples.doc_abcd)
             (Translator.generate_translation_report MoreRuns.stamp
                (Walk.parsed Lite.no_digits Samples.doc_abcd Samples.tree_abcd)
                (map original_text
                   (Translator.extract_texts Lite.no_digits Samples.tree_abcd []))),
     [make_request MoreRuns.key
        (map original_text
           (Translator.extract_texts Lite.no_digits Samples.tree_abcd []))]).
Proof.
  apply (@echoing_service_returns_document Lite.fromstring Lite.no_digits
           (Some MoreRuns.key) (MoreRuns.echo_of MoreRuns.sample_texts)
           MoreRuns.stamp Lite.ascii_lower Runs.panel Samples.doc_abcd
           Samples.tree_abcd MoreRuns.key).
  - discriminate.
  - vm_compute. reflexivity.
  - reflexivity.
  - vm_compute. reflexivity.
  - vm_compute. discriminate.
  - reflexivity.
  - discriminate.
  - vm_compute. reflexivity.
  - vm_compute. reflexivity.
Defined.

Lemma root_text_is_not_extracted_run :
  Lite.fromstring (strip_bom MoreRuns.root_only_doc)
  = Some (Element (lit "label") (Some (lit "Hello world")) [])
  /\ Translator.translate_mui_file Lite.fromstring Lite.no_digits
       (Some MoreRuns.key) Runs.two_line_reply MoreRuns.stamp
       Lite.ascii_lower (Some MoreRuns.root_only)
     = (BadRequest NoTranslatableTexts, []).
Proof.
  assert (Hparse : Lite.fromstring (strip_bom MoreRuns.root_only_doc)
                   = Some (Element (lit "label") (Some (lit "Hello world")) []))
    by (vm_compute; reflexivity).
  split; [exact Hparse |].
  apply (@root_text_is_not_extracted Lite.fromstring Lite.no_digits
           (Some MoreRuns.key) Runs.two_line_reply MoreRuns.stamp
           Lite.ascii_lower MoreRuns.root_only MoreRuns.root_only_doc
           (lit "label") (Some (lit "Hello world"))).
  - discriminate.
  - vm_compute. reflexivity.
  - reflexivity.
  - exact Hparse.
Defined.
